(** * treasure_hunt_bot.py: the game-progression engine

    A shallow embedding of [src/treasure_hunt_bot.py]: the riddle catalog,
    the per-chat session store ([TreasureHuntBot.game_data]), the methods of
    [TreasureHuntBot] and the message handlers that drive them.

    Conventions of the embedding.
    - A Python [int] is a [Z]; a [datetime] is a [Z] (microseconds on the
      clock's time line) and a [timedelta] is the difference of two of them.
      [datetime.now()] reads the clock: every function that calls it takes
      the value read as its argument [now].
    - A Python [str] is a [string]; each [ascii] stands for the code point of
      the same number (the Latin-1 range).  [str.strip] and [str.lower] are
      given on that range.
    - A [dict] keeps its keys in insertion order and [get_leaderboard]
      iterates over [game_data.items()], so the session store is an
      association list in insertion order, not a finite map.
    - Methods of [TreasureHuntBot] read and mutate [self]; they live in a
      state-and-exception monad over the bot.  The handlers also read and
      write [context.user_data].
    - What the program asks of the [qrcode] library and of the operating
      system (does a text fit a QR symbol, can a directory be made, a file
      be written) is not in its source: it is a parameter, [World]. *)

From Stdlib Require Import ZArith List String Ascii Bool Lia.
From Stdlib Require Import Permutation Sorted.
From Stdlib Require Import Decimal DecimalNat DecimalString.
Import ListNotations.

Local Open Scope string_scope.
Local Open Scope list_scope.
Local Open Scope Z_scope.

(* ================================================================== *)
(** ** Python values *)

Module Py.

(** The exceptions the modelled code can raise. *)
Inductive Exn : Type :=
| IndexError
| KeyError
| UnboundLocalError
| AttributeError
| ValueError
| FileNotFoundError.

Inductive Result (A : Type) : Type :=
| Ok (a : A)
| Raise (e : Exn).
Arguments Ok {A} a.
Arguments Raise {A} e.

(** [len(l)] *)
Definition len {A : Type} (l : list A) : Z := Z.of_nat (List.length l).
Arguments len {A} l : simpl never.

(** [l[i]] for a list: a negative index counts from the end, an index
    outside [-len(l) .. len(l)-1] raises [IndexError]. *)
Definition index {A : Type} (l : list A) (i : Z) : Result A :=
  let j := if i <? 0 then i + len l else i in
  if j <? 0 then Raise IndexError
  else match nth_error l (Z.to_nat j) with
       | Some a => Ok a
       | None => Raise IndexError
       end.

(** [c.isspace()] on a code point below 256. *)
Definition isspace (c : ascii) : bool :=
  let n := nat_of_ascii c in
  ((9 <=? n) && (n <=? 13) || (28 <=? n) && (n <=? 32)
   || (n =? 133) || (n =? 160))%nat.

(** [c.lower()] on a code point below 256: A-Z, and the upper-case
    letters of Latin-1 (U+00C0..U+00DE but the multiplication sign). *)
Definition lower_char (c : ascii) : ascii :=
  let n := nat_of_ascii c in
  if ((65 <=? n) && (n <=? 90)
      || (192 <=? n) && (n <=? 222) && negb (n =? 215))%nat
  then ascii_of_nat (n + 32) else c.

(** [s.lower()] *)
Fixpoint lower (s : string) : string :=
  match s with
  | EmptyString => EmptyString
  | String c s' => String (lower_char c) (lower s')
  end.

(** [s.lstrip()] *)
Fixpoint lstrip (s : string) : string :=
  match s with
  | EmptyString => EmptyString
  | String c s' => if isspace c then lstrip s' else s
  end.

(** [s.rstrip()] *)
Fixpoint rstrip (s : string) : string :=
  match s with
  | EmptyString => EmptyString
  | String c s' =>
      match rstrip s' with
      | EmptyString => if isspace c then EmptyString else String c EmptyString
      | r => String c r
      end
  end.

(** [s.strip()] *)
Definition strip (s : string) : string := rstrip (lstrip s).

(** [s.startswith(p)] *)
Definition startswith (s p : string) : bool := String.prefix p s.

(** [len(s)] for a string *)
Definition slen (s : string) : Z := Z.of_nat (String.length s).

(** [a == b] on strings: equality of the code point sequences. *)
Definition str_eq (a b : string) : bool := String.eqb a b.

(** A [dict] with integer keys, in insertion order.  *)
Definition Dict (V : Type) : Type := list (Z * V).

(** [k in d] / [d.get(k)] / [d[k]] *)
Fixpoint dict_get {V : Type} (d : Dict V) (k : Z) : option V :=
  match d with
  | [] => None
  | (k', v) :: d' => if k =? k' then Some v else dict_get d' k
  end.

(** [d[k] = v]: a key already present keeps its place, a new key goes
    last. *)
Fixpoint dict_set {V : Type} (d : Dict V) (k : Z) (v : V) : Dict V :=
  match d with
  | [] => [(k, v)]
  | (k', v') :: d' =>
      if k =? k' then (k, v) :: d' else (k', v') :: dict_set d' k v
  end.

(** [d.items()] *)
Definition items {V : Type} (d : Dict V) : list (Z * V) := d.

(** [len(set(l))]: the number of distinct elements. *)
Fixpoint distinct {A : Type} (eqb : A -> A -> bool) (l : list A) : list A :=
  match l with
  | [] => []
  | a :: l' =>
      if existsb (eqb a) l' then distinct eqb l' else a :: distinct eqb l'
  end.

End Py.

Import Py.

(* ================================================================== *)
(** ** The state-and-exception monad *)

Definition M (S A : Type) : Type := S -> Result (A * S).

Definition ret {S A : Type} (a : A) : M S A := fun s => Ok (a, s).

Definition bind {S A B : Type} (m : M S A) (k : A -> M S B) : M S B :=
  fun s => match m s with
           | Ok (a, s') => k a s'
           | Raise e => Raise e
           end.

Definition raise {S A : Type} (e : Exn) : M S A := fun _ => Raise e.

Definition get {S : Type} : M S S := fun s => Ok (s, s).

Definition put {S : Type} (s : S) : M S unit := fun _ => Ok (tt, s).

Definition lift {S A : Type} (r : Result A) : M S A :=
  fun s => match r with Ok a => Ok (a, s) | Raise e => Raise e end.

Declare Scope monad_scope.
Delimit Scope monad_scope with monad.
Notation "x <- m ;; k" := (bind m (fun x => k))
  (at level 61, m at next level, right associativity) : monad_scope.
Notation "m ;;; k" := (bind m (fun _ => k))
  (at level 61, right associativity) : monad_scope.
Local Open Scope monad_scope.

(* ================================================================== *)
(** ** The data model *)

(** One entry of the list [load_riddles] returns.  The keys ["answer"],
    ["image_path"] and ["map_path"] are absent from some entries and are
    only read with [dict.get]. *)
Record Riddle : Type := {
  id : Z;
  riddle : string;
  answer : option string;
  hint : string;
  image_path : option string;
  map_path : option string;
  location : string;
  qr_code : string
}.

(** [session["status"]]: the strings ["active"] and ["completed"]. *)
Inductive Status : Type := active | completed.

Definition Status_eqb (a b : Status) : bool :=
  match a, b with
  | active, active | completed, completed => true
  | _, _ => false
  end.

(** The dict [create_game_session] builds.  The key ["end_time"] is absent
    until [advance_riddle] sets it. *)
Record Session : Type := {
  team_name : string;
  current_riddle : Z;
  start_time : Z;
  completed_riddles : list Z;
  hints_used : Z;
  status : Status;
  end_time : option Z
}.

Definition set_current_riddle (s : Session) (v : Z) : Session :=
  {| team_name := team_name s; current_riddle := v;
     start_time := start_time s; completed_riddles := completed_riddles s;
     hints_used := hints_used s; status := status s;
     end_time := end_time s |}.

Definition set_completed_riddles (s : Session) (v : list Z) : Session :=
  {| team_name := team_name s; current_riddle := current_riddle s;
     start_time := start_time s; completed_riddles := v;
     hints_used := hints_used s; status := status s;
     end_time := end_time s |}.

Definition set_hints_used (s : Session) (v : Z) : Session :=
  {| team_name := team_name s; current_riddle := current_riddle s;
     start_time := start_time s; completed_riddles := completed_riddles s;
     hints_used := v; status := status s; end_time := end_time s |}.

Definition set_status (s : Session) (v : Status) : Session :=
  {| team_name := team_name s; current_riddle := current_riddle s;
     start_time := start_time s; completed_riddles := completed_riddles s;
     hints_used := hints_used s; status := v; end_time := end_time s |}.

Definition set_end_time (s : Session) (v : Z) : Session :=
  {| team_name := team_name s; current_riddle := current_riddle s;
     start_time := start_time s; completed_riddles := completed_riddles s;
     hints_used := hints_used s; status := status s; end_time := Some v |}.

(** The fields of a [TreasureHuntBot] the engine uses ([token] and the
    rendered [qr_codes] play no part in it). *)
Record TreasureHuntBot : Type := {
  riddles : list Riddle;
  game_data : Dict Session
}.

Definition set_game_data (self : TreasureHuntBot) (d : Dict Session)
  : TreasureHuntBot :=
  {| riddles := riddles self; game_data := d |}.

(** One element of the list [get_leaderboard] returns. *)
Record Entry : Type := {
  e_team_name : string;
  duration : Z;
  e_hints_used : Z;
  chat_id : Z
}.

(* ================================================================== *)
(** ** The catalog *)

(** [TreasureHuntBot.load_riddles] (the pictograph that opens each riddle
    text is left out). *)
Definition load_riddles : list Riddle :=
  [ {| id := 0;
       riddle := "Warm-up! What building has the most stories?";
       answer := Some "library";
       hint := "Think about books!";
       image_path := Some "img_riddles/riddle_0.jpg";
       map_path := Some "img_maps/map_1.jpg";
       location := "start";
       qr_code := "N/A" |};
    {| id := 1;
       riddle := "Under the shade...";
       answer := Some "park";
       hint := "...";
       image_path := Some "...";
       map_path := Some "img_maps/map_2.jpg";
       location := "park";
       qr_code := "TREASURE_HUNT_LOC_1_PARK" |};
    {| id := 3;
       riddle := "Where caffeine flows and friends meet, aromatic beans make life complete. Find the place where morning starts sweet.";
       answer := None;
       hint := "The smell of fresh coffee guides the way!";
       image_path := Some "img_riddles/riddle_3.jpg";
       map_path := None;
       location := "cafe";
       qr_code := "TREASURE_HUNT_LOC_3_CAFE" |};
    {| id := 4;
       riddle := "The final treasure lies within, where this hunt began. Show your courage, you've nearly won!";
       answer := None;
       hint := "Return to where your journey began!";
       image_path := Some "img_riddles/riddle_4.jpg";
       map_path := None;
       location := "start";
       qr_code := "TREASURE_HUNT_LOC_4_START" |} ].

(** The bot [TreasureHuntBot.__init__] leaves when it returns: an empty
    store and the catalog.  The catalog is an argument here so that the
    engine can be stated for every list a customised [load_riddles] may
    return.  The constructor itself, which can raise, is
    [TreasureHuntBot_init] below. *)
Definition init (rs : list Riddle) : TreasureHuntBot :=
  {| riddles := rs; game_data := [] |}.

(* ================================================================== *)
(** ** The methods of [TreasureHuntBot] *)

Definition Bot (A : Type) : Type := M TreasureHuntBot A.

(** [self.game_data[chat_id] = session] *)
Definition store (chat : Z) (session : Session) : Bot unit :=
  self <- get ;;
  put (set_game_data self (dict_set (game_data self) chat session)).

(** [TreasureHuntBot.create_game_session] *)
Definition create_game_session (now : Z) (chat : Z) (name : string)
  : Bot Session :=
  let session :=
    {| team_name := name;
       current_riddle := 0;
       start_time := now;
       completed_riddles := [];
       hints_used := 0;
       status := active;
       end_time := None |} in
  store chat session ;;;
  ret session.

(** [TreasureHuntBot.get_current_riddle] *)
Definition get_current_riddle (chat : Z) : Bot (option Riddle) :=
  self <- get ;;
  match dict_get (game_data self) chat with
  | None => ret None
  | Some session =>
      if current_riddle session >=? len (riddles self) then ret None
      else
        r <- lift (index (riddles self) (current_riddle session)) ;;
        ret (Some r)
  end.

(** [TreasureHuntBot.validate_qr_code] *)
Definition validate_qr_code (chat : Z) (qr_data : string) : Bot bool :=
  cur <- get_current_riddle chat ;;
  match cur with
  | None => ret false
  | Some r => ret (str_eq qr_data (qr_code r))
  end.

(** [TreasureHuntBot.advance_riddle].  The session dict is mutated in
    place, so it keeps its place in [game_data]. *)
Definition advance_riddle (now : Z) (chat : Z) : Bot bool :=
  self <- get ;;
  match dict_get (game_data self) chat with
  | None => ret false
  | Some session =>
      let session :=
        set_completed_riddles session
          (completed_riddles session ++ [current_riddle session]) in
      let session := set_current_riddle session (current_riddle session + 1) in
      let session :=
        if current_riddle session >=? len (riddles self)
        then set_end_time (set_status session completed) now
        else session in
      store chat session ;;;
      ret true
  end.

(** The sort key of [get_leaderboard]: the tuple
    [(x["duration"], x["hints_used"])]. *)
Definition key (x : Entry) : Z * Z := (duration x, e_hints_used x).

(** [a < b] on 2-tuples of integers: Python compares tuples
    lexicographically. *)
Definition tuple_lt (a b : Z * Z) : bool :=
  (fst a <? fst b) || ((fst a =? fst b) && (snd a <? snd b)).

(** [a <= b] on the same tuples. *)
Definition tuple_le (a b : Z * Z) : bool := negb (tuple_lt b a).

(** [list.sort(key=...)] is a stable sort that compares keys with [<] only.
    It is given here as the insertion sort with the same result: an element
    goes in front of the first one whose key is not smaller than its own,
    so it stays ahead of the later elements with an equal key. *)
Fixpoint insert_by {A : Type} (k : A -> Z * Z) (x : A) (l : list A) : list A :=
  match l with
  | [] => [x]
  | y :: l' =>
      if tuple_lt (k y) (k x) then y :: insert_by k x l' else x :: y :: l'
  end.

Fixpoint sort_by {A : Type} (k : A -> Z * Z) (l : list A) : list A :=
  match l with
  | [] => []
  | x :: l' => insert_by k x (sort_by k l')
  end.

(** The loop of [get_leaderboard] over [self.game_data.items()].
    [session["end_time"]] raises [KeyError] for a session that has no such
    key. *)
Fixpoint completed_games (its : list (Z * Session)) : Result (list Entry) :=
  match its with
  | [] => Ok []
  | (chat, session) :: rest =>
      if Status_eqb (status session) completed then
        match end_time session with
        | None => Raise KeyError
        | Some e =>
            match completed_games rest with
            | Ok games =>
                Ok ({| e_team_name := team_name session;
                       duration := e - start_time session;
                       e_hints_used := hints_used session;
                       chat_id := chat |} :: games)
            | Raise exn => Raise exn
            end
        end
      else completed_games rest
  end.

(** [TreasureHuntBot.get_leaderboard] *)
Definition get_leaderboard : Bot (list Entry) :=
  self <- get ;;
  games <- lift (completed_games (items (game_data self))) ;;
  ret (sort_by key games).

(* ================================================================== *)
(** ** The handlers *)

(** What a handler sends back.  Texts and pictures are the renderer's
    business; a reply keeps what the text is made from. *)
Inductive Reply : Type :=
| NotInitialized                    (* "Bot not properly initialized." *)
| NoActiveRiddleFound               (* send_riddle: "No active riddle found." *)
| RiddlePresented (r : Riddle) (team : option string)
| TeamNameTooShort
| NoActiveGame                      (* "Nessuna partita attiva." *)
| AllSolved                         (* "Hai gia risolto tutti gli enigmi!" *)
| AnswerCorrect (map : option string) (* the map, or "Risposta corretta!" *)
| AnswerWrong                       (* "Risposta sbagliata." *)
| HintGiven (text : string)
| NoRiddleForHint                   (* both hint paths, no current riddle *)
| AskTeamName
| LeaderboardEmpty
| Leaderboard (top : list Entry)
| Help
| NoReply.

(** [send_riddle] *)
Definition send_riddle (chat : Z) (team : option string) : Bot Reply :=
  cur <- get_current_riddle chat ;;
  match cur with
  | None => ret NoActiveRiddleFound
  | Some r => ret (RiddlePresented r team)
  end.

(** [bot_instance.game_data[chat_id]["hints_used"] += 1] *)
Definition add_hint (chat : Z) : Bot unit :=
  self <- get ;;
  match dict_get (game_data self) chat with
  | None => raise KeyError
  | Some session =>
      store chat (set_hints_used session (hints_used session + 1))
  end.

(** The body of [hint_command] once the bot instance is found (the same
    steps make the ["hint"] branch of [button_callback]). *)
Definition use_hint (chat : Z) : Bot Reply :=
  cur <- get_current_riddle chat ;;
  match cur with
  | None => ret NoRiddleForHint
  | Some r =>
      add_hint chat ;;;
      ret (HintGiven (hint r))
  end.

(** [current_riddle.get("answer", "").strip().lower()] *)
Definition correct_answer (r : Riddle) : string :=
  lower (strip (match answer r with Some a => a | None => "" end)).

(** The last part of [handle_message]: a text that is neither a team name
    nor a scanned code is an answer to the current riddle.  [text] is the
    message text, stripped and lower-cased. *)
Definition submit_answer (chat : Z) (text : string) : Bot Reply :=
  self <- get ;;
  match dict_get (game_data self) chat with
  | None => ret NoActiveGame
  | Some session =>
      if negb (Status_eqb (status session) active) then ret NoActiveGame
      else
        cur <- get_current_riddle chat ;;
        match cur with
        | None => ret AllSolved
        | Some r =>
            if str_eq text (correct_answer r)
            then ret (AnswerCorrect (map_path r))
            else ret AnswerWrong
        end
  end.

(** What a handler finds in [context]: the bot instance under
    [bot_data['bot_instance']] and the flag under
    [user_data['waiting_for_team_name']]. *)
Record Context : Type := {
  bot_instance : option TreasureHuntBot;
  waiting_for_team_name : bool
}.

Definition Handler (A : Type) : Type := M Context A.

(** A handler calls a method on [bot_instance].  The instance is the one
    object kept in [bot_data]: what the method changes there is seen by
    every later call.  A method called on [None] raises
    [AttributeError]. *)
Definition call {A : Type} (m : Bot A) : Handler A :=
  fun ctx =>
    match bot_instance ctx with
    | None => Raise AttributeError
    | Some bot =>
        match m bot with
        | Ok (a, bot') =>
            Ok (a, {| bot_instance := Some bot';
                      waiting_for_team_name := waiting_for_team_name ctx |})
        | Raise e => Raise e
        end
    end.

(** [context.user_data['waiting_for_team_name'] = b] *)
Definition set_waiting (b : bool) : Handler unit :=
  fun ctx =>
    Ok (tt, {| bot_instance := bot_instance ctx;
               waiting_for_team_name := b |}).

(** [not bot_instance] *)
Definition no_instance (ctx : Context) : bool :=
  match bot_instance ctx with None => true | Some _ => false end.

(** [handle_message].  In the branch for a scanned code the first statement
    reads the local variable [current_riddle], which is only assigned
    further down, in the answer part: the branch raises
    [UnboundLocalError] before it validates anything. *)
Definition handle_message (now : Z) (chat : Z) (message_text : string)
  : Handler Reply :=
  ctx <- get ;;
  if no_instance ctx then ret NotInitialized
  else
    let text := lower (strip message_text) in
    if waiting_for_team_name ctx then
      let name := strip text in
      if slen name <? 2 then ret TeamNameTooShort
      else
        call (create_game_session now chat name) ;;;
        set_waiting false ;;;
        call (send_riddle chat (Some name))
    else if startswith text "TREASURE_HUNT_" then raise UnboundLocalError
    else call (submit_answer chat text).

(** [hint_command] *)
Definition hint_command (chat : Z) : Handler Reply :=
  ctx <- get ;;
  if no_instance ctx then ret NotInitialized
  else call (use_hint chat).

(** [button_callback]; [data] is [query.data]. *)
Definition button_callback (chat : Z) (data : string) : Handler Reply :=
  ctx <- get ;;
  if no_instance ctx then ret NotInitialized
  else if str_eq data "new_game" then set_waiting true ;;; ret AskTeamName
  else if str_eq data "leaderboard" then
    board <- call get_leaderboard ;;
    match board with
    | [] => ret LeaderboardEmpty
    | _ => ret (Leaderboard (firstn 10 board))
    end
  else if str_eq data "help" then ret Help
  else if str_eq data "hint" then call (use_hint chat)
  else ret NoReply.

(* ================================================================== *)
(** ** The library and the operating system *)

(** The error correction level of a QR symbol: [generate_qr_codes] leaves
    the library's default, [ERROR_CORRECT_M], [save_qr_code_images] asks
    for [ERROR_CORRECT_L]. *)
Inductive ErrorCorrection : Type := ERROR_CORRECT_L | ERROR_CORRECT_M.

(** What the program asks of the [qrcode] library and of the operating
    system, whose code is not the program's:
    - [qr_fits ec data]: [qr.make(fit=True)] finds a symbol version that
      holds [data] at level [ec]; when there is none it raises
      [ValueError] ([DataOverflowError] in older versions of the library);
    - [makedirs path]: [os.makedirs(path, exist_ok=True)];
    - [write_file path]: [img.save(path)], and [open(path, 'w')] with what
      is written through it. *)
Record World : Type := {
  qr_fits : ErrorCorrection -> string -> bool;
  makedirs : string -> Result unit;
  write_file : string -> Result unit
}.

(** A [qrcode.QRCode] with its data added and its symbol made. *)
Record QRCode : Type := {
  error_correction : ErrorCorrection;
  box_size : Z;
  border : Z;
  qr_data : string
}.

(** [qr = qrcode.QRCode(version=1, error_correction=ec, box_size=..,
    border=..); qr.add_data(data); qr.make(fit=True)] *)
Definition make_qr (w : World) (ec : ErrorCorrection) (box brd : Z)
  (data : string) : Result QRCode :=
  if qr_fits w ec data
  then Ok {| error_correction := ec; box_size := box; border := brd;
             qr_data := data |}
  else Raise ValueError.

(** [d[k] = v] for a [dict] with string keys. *)
Fixpoint str_dict_set {V : Type} (d : list (string * V)) (k : string) (v : V)
  : list (string * V) :=
  match d with
  | [] => [(k, v)]
  | (k', v') :: d' =>
      if String.eqb k k' then (k, v) :: d' else (k', v') :: str_dict_set d' k v
  end.

(** The loop of [generate_qr_codes]. *)
Fixpoint generate_qr_codes_from (w : World) (rs : list Riddle)
  (qr_codes : list (string * QRCode)) : Result (list (string * QRCode)) :=
  match rs with
  | [] => Ok qr_codes
  | r :: rs' =>
      match make_qr w ERROR_CORRECT_M 10 5 (qr_code r) with
      | Ok qr =>
          generate_qr_codes_from w rs' (str_dict_set qr_codes (qr_code r) qr)
      | Raise e => Raise e
      end
  end.

(** [TreasureHuntBot.generate_qr_codes] *)
Definition generate_qr_codes (w : World) (rs : list Riddle)
  : Result (list (string * QRCode)) :=
  generate_qr_codes_from w rs [].

(** [TreasureHuntBot.__init__], for the catalog [rs] that [load_riddles]
    returns: it makes the QR symbol of every riddle and so raises when one
    code fits no symbol.  The dict of symbols it keeps in [self.qr_codes]
    is not read again and is no field of [TreasureHuntBot] here. *)
Definition TreasureHuntBot_init (w : World) (rs : list Riddle)
  : Result TreasureHuntBot :=
  match generate_qr_codes w rs with
  | Ok _ => Ok (init rs)
  | Raise e => Raise e
  end.

(* ================================================================== *)
(** ** The files of [save_qr_code_images] *)

(** [f"{i:02d}"] for [i >= 0]: the decimal digits of [i], with a zero in
    front when there is one digit only. *)
Definition format_02d (i : nat) : string :=
  let digits := NilEmpty.string_of_uint (Nat.to_uint i) in
  if (String.length digits <? 2)%nat then String "0" digits else digits.

(** [f"stop_{i:02d}_{riddle['location']}.png"] *)
Definition qr_filename (i : nat) (r : Riddle) : string :=
  ("stop_" ++ format_02d i ++ "_" ++ location r ++ ".png")%string.

(** [path.endswith("/")] *)
Fixpoint ends_with_sep (path : string) : bool :=
  match path with
  | EmptyString => false
  | String c EmptyString => Ascii.eqb c "/"
  | String _ rest => ends_with_sep rest
  end.

(** [os.path.join(a, b)] of [posixpath]. *)
Definition path_join (a b : string) : string :=
  if startswith b "/" then b
  else if String.eqb a "" || ends_with_sep a then (a ++ b)%string
  else (a ++ "/" ++ b)%string.

(** A computation that writes files: its state is the list of the paths
    written so far, in the order of writing.  (When it raises, the list is
    not returned; the files written before stay.) *)
Definition Files (A : Type) : Type := M (list string) A.

(** [img.save(path)], or a text file written at [path]. *)
Definition write (w : World) (path : string) : Files unit :=
  fun written =>
    match write_file w path with
    | Ok _ => Ok (tt, written ++ [path])
    | Raise e => Raise e
    end.

(** The first loop of [save_qr_code_images], over
    [enumerate(self.riddles, 1)], counting from [i]. *)
Fixpoint save_images (w : World) (output_dir : string) (i : nat)
  (rs : list Riddle) : Files unit :=
  match rs with
  | [] => ret tt
  | r :: rs' =>
      lift (make_qr w ERROR_CORRECT_L 10 4 (qr_code r)) ;;;
      write w (path_join output_dir (qr_filename i r)) ;;;
      save_images w output_dir (S i) rs'
  end.

(** [TreasureHuntBot.save_qr_code_images]: the directory, an image for
    each riddle, then the summary. *)
Definition save_qr_code_images (w : World) (output_dir : string)
  (self : TreasureHuntBot) : Files bool :=
  lift (makedirs w output_dir) ;;;
  save_images w output_dir 1 (riddles self) ;;;
  write w (path_join output_dir "qr_codes_summary.txt") ;;;
  ret true.

(* ================================================================== *)
(** ** Start-up *)

(** The parsed command line of [main]. *)
Record Args : Type := {
  token : option string;
  generate_qr : bool;
  output : string;
  list_riddles : bool;
  validate : bool
}.

(** How [main] ends when it does not raise: with one of its early
    [return]s, or in [application.run_polling] with the bot instance it
    stored in [bot_data]. *)
Inductive Outcome : Type :=
| RiddlesListed
| QrGenerated
| DuplicateIds            (* "Duplicate riddle IDs found!" *)
| DuplicateQrCodes        (* "Duplicate QR codes found!" *)
| ValidationPassed        (* "Configuration validation passed!" *)
| TokenRequired
| Polling (ctx : Context).

(** [len(l) != len(set(l))] *)
Definition has_duplicates {A : Type} (eqb : A -> A -> bool) (l : list A)
  : bool :=
  negb (len l =? len (distinct eqb l)).

(** [not args.token]: no token, or an empty one. *)
Definition no_token (a : Args) : bool :=
  match token a with
  | None => true
  | Some t => str_eq t ""
  end.

(** [main], for the catalog [rs] that [load_riddles] returns.  It first
    constructs a bot, whatever the arguments, and that can raise.  The
    checks for duplicates are in the branch of [--validate], which returns
    whether they pass or not (the codes without the recommended prefix only
    get a warning printed there).  To run the bot it constructs the bot a
    second time. *)
Definition main (w : World) (rs : list Riddle) (args : Args) : Result Outcome :=
  match TreasureHuntBot_init w rs with
  | Raise e => Raise e
  | Ok bot =>
      if list_riddles args then Ok RiddlesListed
      else if generate_qr args then
        match save_qr_code_images w (output args) bot [] with
        | Ok _ => Ok QrGenerated
        | Raise e => Raise e
        end
      else if validate args then
        let ids := map id (riddles bot) in
        if has_duplicates Z.eqb ids then Ok DuplicateIds
        else
          let qr_codes := map qr_code (riddles bot) in
          if has_duplicates String.eqb qr_codes then Ok DuplicateQrCodes
          else Ok ValidationPassed
      else if no_token args then Ok TokenRequired
      else
        match TreasureHuntBot_init w rs with
        | Raise e => Raise e
        | Ok bot =>
            Ok (Polling {| bot_instance := Some bot;
                           waiting_for_team_name := false |})
        end
  end.

(* ================================================================== *)
(** ** Runs of the engine *)

(** The operations of the engine on the session store, as the handlers and
    the spec's Progression Engine name them. *)
Inductive Op : Type :=
| OpCreate (now : Z) (chat : Z) (name : string)
| OpAdvance (now : Z) (chat : Z)
| OpHint (chat : Z)
| OpAnswer (chat : Z) (text : string)
| OpValidate (chat : Z) (code : string)
| OpCurrent (chat : Z)
| OpLeaderboard.

Definition exec (op : Op) : Bot unit :=
  match op with
  | OpCreate now chat name => create_game_session now chat name ;;; ret tt
  | OpAdvance now chat => advance_riddle now chat ;;; ret tt
  | OpHint chat => use_hint chat ;;; ret tt
  | OpAnswer chat text => submit_answer chat text ;;; ret tt
  | OpValidate chat code => validate_qr_code chat code ;;; ret tt
  | OpCurrent chat => get_current_riddle chat ;;; ret tt
  | OpLeaderboard => get_leaderboard ;;; ret tt
  end.

(** [run ops]: the operations one after the other. *)
Fixpoint run (ops : list Op) : Bot unit :=
  match ops with
  | [] => ret tt
  | op :: ops' => exec op ;;; run ops'
  end.

(** The bot states a run can reach from a new [TreasureHuntBot]. *)
Inductive reachable (rs : list Riddle) : TreasureHuntBot -> Prop :=
| reach_init : reachable rs (init rs)
| reach_step : forall bot op bot',
    reachable rs bot -> exec op bot = Ok (tt, bot') -> reachable rs bot'.

(** [range(n)] as a list of integers. *)
Definition range (n : Z) : list Z := map Z.of_nat (seq 0 (Z.to_nat n)).

(** What holds of every session in a reachable store. *)
Record session_inv (rs : list Riddle) (s : Session) : Prop := {
  inv_pos : 0 <= current_riddle s;
  inv_done : completed_riddles s = range (current_riddle s);
  inv_hints : 0 <= hints_used s;
  inv_completed : status s = completed ->
                  len rs <= current_riddle s /\ end_time s <> None;
  inv_active : status s = active ->
               current_riddle s < len rs \/ current_riddle s = 0
}.

Record bot_inv (rs : list Riddle) (bot : TreasureHuntBot) : Prop := {
  inv_riddles : riddles bot = rs;
  inv_keys : NoDup (map fst (game_data bot));
  inv_sessions : Forall (fun it => session_inv rs (snd it)) (game_data bot)
}.

(** The session of a chat, if it has one. *)
Definition session_of (bot : TreasureHuntBot) (chat : Z) : option Session :=
  dict_get (game_data bot) chat.

(** [advance_riddle] called once for each clock reading of [times]. *)
Definition advance_times (times : list Z) (chat : Z) : Bot unit :=
  run (map (fun now => OpAdvance now chat) times).

(** The bot state a computation ends in, when it does not raise. *)
Definition final {A : Type} (m : Bot A) (bot : TreasureHuntBot)
  : option TreasureHuntBot :=
  match m bot with
  | Ok (_, bot') => Some bot'
  | Raise _ => None
  end.

(** The status of a chat's session after a computation. *)
Definition status_after {A : Type} (m : Bot A) (bot : TreasureHuntBot)
  (chat : Z) : option Status :=
  match final m bot with
  | Some bot' => option_map status (session_of bot' chat)
  | None => None
  end.

(** The catalog has two riddles with one id, or two with one code. *)
Definition catalog_has_duplicates (rs : list Riddle) : bool :=
  has_duplicates Z.eqb (map id rs) || has_duplicates String.eqb (map qr_code rs).

(** The engine is running: [main] has reached [run_polling]. *)
Definition engine_runs (o : Outcome) : bool :=
  match o with
  | Polling _ => true
  | _ => false
  end.

(** The catalog entry at [pos], for a position inside the catalog. *)
Definition riddle_at (bot : TreasureHuntBot) (pos : Z) : option Riddle :=
  if (0 <=? pos) && (pos <? len (riddles bot))
  then nth_error (riddles bot) (Z.to_nat pos) else None.

(** The session [advance_riddle] leaves in the store. *)
Definition advanced (rs : list Riddle) (now : Z) (s : Session) : Session :=
  {| team_name := team_name s;
     current_riddle := current_riddle s + 1;
     start_time := start_time s;
     completed_riddles := completed_riddles s ++ [current_riddle s];
     hints_used := hints_used s;
     status := if current_riddle s + 1 >=? len rs then completed else status s;
     end_time := if current_riddle s + 1 >=? len rs then Some now
                 else end_time s |}.


(** The session dict [create_game_session] builds. *)
Definition new_session (now : Z) (name : string) : Session :=
  {| team_name := name; current_riddle := 0; start_time := now;
     completed_riddles := []; hints_used := 0;
     status := active; end_time := None |}.

(** [op] is [create_game_session] for [chat]. *)
Definition creates (chat : Z) (op : Op) : bool :=
  match op with
  | OpCreate _ c _ => c =? chat
  | _ => false
  end.

(** The leaderboard entry of a completed session that ended at [t]. *)
Definition entry (chat : Z) (s : Session) (t : Z) : Entry :=
  {| e_team_name := team_name s;
     duration := t - start_time s;
     e_hints_used := hints_used s;
     chat_id := chat |}.

(** [a == b] on 2-tuples of integers. *)
Definition tuple_eqb (a b : Z * Z) : bool :=
  (fst a =? fst b) && (snd a =? snd b).

(** [a] is not ranked after [b]: the order [get_leaderboard] sorts by. *)
Definition ranks_before (a b : Entry) : Prop :=
  duration a < duration b \/
  (duration a = duration b /\ e_hints_used a <= e_hints_used b).

(** The sessions of the store that are [completed], in store order. *)
Definition list_completed (bot : TreasureHuntBot) : list (Z * Session) :=
  filter (fun it => Status_eqb (status (snd it)) completed) (game_data bot).

(** [e] is the leaderboard entry of the store item [it]. *)
Definition entry_of (it : Z * Session) (e : Entry) : Prop :=
  exists t, end_time (snd it) = Some t /\ e = entry (fst it) (snd it) t.

(** [k a <= k b], for a sort key [k]. *)
Definition key_le {A : Type} (k : A -> Z * Z) (a b : A) : Prop :=
  tuple_le (k a) (k b) = true.

(** A catalog as [load_riddles] could be edited to return it: the first two
    stops of the shipped one, the second given the id and the code of the
    first. *)
Definition twice_the_same : list Riddle :=
  [ {| id := 1; riddle := "Under the shade..."; answer := Some "park";
       hint := "..."; image_path := None; map_path := None;
       location := "park"; qr_code := "TREASURE_HUNT_LOC_1_PARK" |};
    {| id := 1; riddle := "Where caffeine flows..."; answer := None;
       hint := "..."; image_path := None; map_path := None;
       location := "cafe"; qr_code := "TREASURE_HUNT_LOC_1_PARK" |} ].

(** [--token 123:abc] *)
Definition token_only : Args :=
  {| token := Some "123:abc"; generate_qr := false; output := "qr_codes";
     list_riddles := false; validate := false |}.

(** [--validate] *)
Definition validate_only : Args :=
  {| token := None; generate_qr := false; output := "qr_codes";
     list_riddles := false; validate := true |}.

(** A world for the examples: a text of up to 100 characters fits a QR
    symbol at either level (a symbol holds far more), [os.makedirs] raises
    for the empty path, which names no directory, and for no other, and
    every file can be written. *)
Definition calm : World :=
  {| qr_fits := fun _ data => (String.length data <=? 100)%nat;
     makedirs := fun path =>
                   if String.eqb path "" then Raise FileNotFoundError
                   else Ok tt;
     write_file := fun _ => Ok tt |}.

(** [main] has reached [run_polling]. *)
Definition engine_started (r : Result Outcome) : bool :=
  match r with
  | Ok o => engine_runs o
  | Raise _ => false
  end.

(** Every code of the catalog fits a QR symbol at the level
    [generate_qr_codes] uses. *)
Definition codes_fit (w : World) (rs : list Riddle) : bool :=
  forallb (fun r => qr_fits w ERROR_CORRECT_M (qr_code r)) rs.

(** ** States of a game on the shipped catalog *)

(** The bot after [ops] on a new bot with the catalog of [load_riddles]. *)
Definition play (ops : list Op) : TreasureHuntBot :=
  match run ops (init load_riddles) with
  | Ok (_, bot) => bot
  | Raise _ => init load_riddles
  end.

Definition to_start : list Op := [OpCreate 0 7 "foo"].
Definition to_park : list Op := [OpCreate 0 7 "foo"; OpAdvance 10 7].
Definition to_cafe : list Op :=
  [OpCreate 0 7 "foo"; OpAdvance 10 7; OpAdvance 20 7].
Definition to_end : list Op :=
  [OpCreate 0 7 "foo"; OpAdvance 10 7; OpAdvance 20 7; OpAdvance 30 7;
   OpAdvance 40 7].

(** Team 1 finishes in 600 with 2 hints, team 2 in 480 with 5 hints, team 3
    does not finish. *)
Definition to_two_finished : list Op :=
  [OpCreate 0 1 "slow"; OpCreate 0 2 "fast"; OpCreate 0 3 "idle";
   OpHint 1; OpHint 1; OpHint 2; OpHint 2; OpHint 2; OpHint 2; OpHint 2;
   OpAdvance 100 1; OpAdvance 100 2; OpAdvance 200 1; OpAdvance 200 2;
   OpAdvance 300 1; OpAdvance 300 2; OpAdvance 480 2; OpAdvance 600 1].

Definition at_start : TreasureHuntBot := Eval vm_compute in play to_start.
Definition at_park : TreasureHuntBot := Eval vm_compute in play to_park.
Definition at_cafe : TreasureHuntBot := Eval vm_compute in play to_cafe.
Definition at_end : TreasureHuntBot := Eval vm_compute in play to_end.
Definition two_finished : TreasureHuntBot :=
  Eval vm_compute in play to_two_finished.

(** What is left of the session of chat 7 in [at_end]. *)
Definition session_at_end : Session :=
  {| team_name := "foo"; current_riddle := 4; start_time := 0;
     completed_riddles := [0; 1; 2; 3]; hints_used := 0;
     status := completed; end_time := Some 40 |}.

(** The session of chat 7 in [at_cafe]. *)
Definition session_at_cafe : Session :=
  {| team_name := "foo"; current_riddle := 2; start_time := 0;
     completed_riddles := [0; 1]; hints_used := 0;
     status := active; end_time := None |}.

(* ================================================================== *)
(** ** Further notions for the properties of the engine *)

(** The chats of the store, in the order [game_data] iterates. *)
Definition chats (bot : TreasureHuntBot) : list Z := map fst (game_data bot).

(** How [status], [current_riddle] and [end_time] of a session go
    together. *)
Definition status_matches (rs : list Riddle) (s : Session) : Prop :=
  (status s = completed <->
   0 < current_riddle s /\ len rs <= current_riddle s) /\
  (end_time s = None <-> status s = active).

(* ================================================================== *)
(** ** The other handlers, and the updates they serve *)

(** What [status_command] sends back. *)
Inductive StatusReply : Type :=
| StatusNotInitialized     (* "Bot not properly initialized." *)
| StatusNoGame             (* "No active game found!" *)
| StatusGameCompleted      (* "Game completed! Great job!" *)
| StatusSnapshot (team : string) (progress total hints : Z) (r : Riddle).

(** [bot_instance.game_data.get(chat_id)] *)
Definition game_data_get (chat : Z) : Bot (option Session) :=
  self <- get ;;
  ret (dict_get (game_data self) chat).

(** [len(bot_instance.riddles)] *)
Definition riddle_count : Bot Z :=
  self <- get ;;
  ret (len (riddles self)).

(** [status_command] *)
Definition status_command (chat : Z) : Handler StatusReply :=
  ctx <- get ;;
  if no_instance ctx then ret StatusNotInitialized
  else
    session <- call (game_data_get chat) ;;
    match session with
    | None => ret StatusNoGame
    | Some session =>
        cur <- call (get_current_riddle chat) ;;
        match cur with
        | None => ret StatusGameCompleted
        | Some r =>
            let progress := len (completed_riddles session) in
            total <- call riddle_count ;;
            ret (StatusSnapshot (team_name session) progress total
                   (hints_used session) r)
        end
    end.

(** [start]: it sends the welcome text with the menu and neither reads nor
    writes the bot or the user data. *)
Definition start : Handler unit := ret tt.

(** The updates the application routes to the handlers [main] installs:
    a text message, the commands [/hint], [/status] and [/start], and a
    pressed button with its [callback_data]. *)
Inductive Update : Type :=
| Message (now : Z) (chat : Z) (text : string)
| HintCommand (chat : Z)
| StatusCommand (chat : Z)
| StartCommand
| Button (chat : Z) (data : string).

Definition dispatch (u : Update) : Handler unit :=
  match u with
  | Message now chat text => handle_message now chat text ;;; ret tt
  | HintCommand chat => hint_command chat ;;; ret tt
  | StatusCommand chat => status_command chat ;;; ret tt
  | StartCommand => start
  | Button chat data => button_callback chat data ;;; ret tt
  end.

(** The contexts the handlers can find once [main] polls: the one [main]
    made, the one a handler leaves, and the same bot seen with the
    [user_data] of another user. *)
Inductive served (world : World) (rs : list Riddle) : Context -> Prop :=
| served_main : forall args ctx,
    main world rs args = Ok (Polling ctx) -> served world rs ctx
| served_update : forall ctx u ctx',
    served world rs ctx -> dispatch u ctx = Ok (tt, ctx') ->
    served world rs ctx'
| served_user : forall ctx w,
    served world rs ctx ->
    served world rs {| bot_instance := bot_instance ctx;
                       waiting_for_team_name := w |}.

(** A session that has not moved. *)
Definition at_first_riddle (s : Session) : Prop :=
  current_riddle s = 0 /\ completed_riddles s = [] /\
  status s = active /\ end_time s = None.

(* ================================================================== *)
(** ** Further states and catalogs for the examples *)

Definition to_last : list Op :=
  [OpCreate 0 7 "foo"; OpAdvance 10 7; OpAdvance 20 7; OpAdvance 30 7].

(** A session at the last riddle of the shipped catalog. *)
Definition at_last : TreasureHuntBot := Eval vm_compute in play to_last.

(** A catalog whose first riddle is answered by its code only. *)
Definition code_only_first : list Riddle :=
  [ {| id := 0; riddle := "Go to the gate."; answer := None;
       hint := "It is green."; image_path := None; map_path := None;
       location := "gate"; qr_code := "A" |};
    {| id := 1; riddle := "Under the shade..."; answer := Some "park";
       hint := "..."; image_path := None; map_path := None;
       location := "park"; qr_code := "B" |};
    {| id := 2; riddle := "Where caffeine flows..."; answer := None;
       hint := "..."; image_path := None; map_path := None;
       location := "cafe"; qr_code := "C" |} ].


(* ================================================================== *)
(** * Properties *)

(** ** The monad and the dictionary *)

Ltac unmonad :=
  cbv [bind ret get put lift raise store final status_after session_of] in *.

Lemma dict_get_set_eq {V : Type} (d : Dict V) (k : Z) (v : V) :
  dict_get (dict_set d k v) k = Some v.
Proof.
  induction d as [|[k' v'] d IH]; simpl.
  - now rewrite Z.eqb_refl.
  - destruct (k =? k') eqn:E; simpl.
    + now rewrite Z.eqb_refl.
    + now rewrite E.
Qed.

Lemma dict_get_set_neq {V : Type} (d : Dict V) (k k' : Z) (v : V) :
  k <> k' -> dict_get (dict_set d k v) k' = dict_get d k'.
Proof.
  intros Hne. induction d as [|[k0 v0] d IH]; simpl.
  - destruct (k' =? k) eqn:E; [apply Z.eqb_eq in E; congruence | reflexivity].
  - destruct (k =? k0) eqn:E; simpl.
    + apply Z.eqb_eq in E. subst k0.
      destruct (k' =? k) eqn:E'; [apply Z.eqb_eq in E'; congruence | reflexivity].
    + destruct (k' =? k0); [reflexivity | exact IH].
Qed.

Lemma dict_get_In {V : Type} (d : Dict V) (k : Z) (v : V) :
  dict_get d k = Some v -> In (k, v) d.
Proof.
  induction d as [|[k' v'] d IH]; simpl; [discriminate|].
  destruct (k =? k') eqn:E.
  - apply Z.eqb_eq in E. intros [= ->]. left. now subst.
  - intros H. right. now apply IH.
Qed.

Lemma dict_get_None {V : Type} (d : Dict V) (k : Z) :
  dict_get d k = None <-> ~ In k (map fst d).
Proof.
  induction d as [|[k' v'] d IH]; simpl.
  - tauto.
  - destruct (k =? k') eqn:E.
    + apply Z.eqb_eq in E. split; [discriminate | intros H; exfalso; apply H; now left].
    + apply Z.eqb_neq in E. rewrite IH. split; [intros H [H'|H']; congruence | tauto].
Qed.

Lemma In_dict_get {V : Type} (d : Dict V) (k : Z) (v : V) :
  NoDup (map fst d) -> In (k, v) d -> dict_get d k = Some v.
Proof.
  induction d as [|[k' v'] d IH]; simpl; [tauto|].
  intros Hnd [H|H].
  - injection H as -> ->. now rewrite Z.eqb_refl.
  - inversion Hnd as [|? ? Hnin Hnd']; subst.
    destruct (k =? k') eqn:E.
    + apply Z.eqb_eq in E. subst k'. exfalso. apply Hnin.
      change k with (fst (k, v)). now apply in_map.
    + now apply IH.
Qed.

Lemma dict_set_keys {V : Type} (d : Dict V) (k : Z) (v : V) :
  map fst (dict_set d k v) =
  match dict_get d k with
  | Some _ => map fst d
  | None => map fst d ++ [k]
  end.
Proof.
  induction d as [|[k' v'] d IH]; simpl; [reflexivity|].
  destruct (k =? k') eqn:E; simpl.
  - apply Z.eqb_eq in E. now subst.
  - rewrite IH. now destruct (dict_get d k).
Qed.

Lemma dict_set_NoDup {V : Type} (d : Dict V) (k : Z) (v : V) :
  NoDup (map fst d) -> NoDup (map fst (dict_set d k v)).
Proof.
  intros Hnd. rewrite dict_set_keys.
  destruct (dict_get d k) eqn:E; [exact Hnd|].
  apply dict_get_None in E.
  apply NoDup_rev in Hnd. rewrite <- (rev_involutive (map fst d ++ [k])).
  apply NoDup_rev. rewrite rev_app_distr. simpl. constructor; [|exact Hnd].
  now rewrite <- in_rev.
Qed.

Lemma dict_set_Forall {V : Type} (P : Z * V -> Prop) (d : Dict V) (k : Z) (v : V) :
  Forall P d -> P (k, v) -> Forall P (dict_set d k v).
Proof.
  intros Hd Hv. induction d as [|[k' v'] d IH]; simpl.
  - now constructor.
  - inversion Hd; subst. destruct (k =? k'); constructor; auto.
Qed.

Lemma dict_get_Forall {V : Type} (P : Z * V -> Prop) (d : Dict V) (k : Z) (v : V) :
  Forall P d -> dict_get d k = Some v -> P (k, v).
Proof.
  intros Hd Hg. apply dict_get_In in Hg.
  rewrite Forall_forall in Hd. now apply Hd.
Qed.

(** ** What each method does *)

Lemma len_nonneg {A : Type} (l : list A) : 0 <= len l.
Proof. unfold len. lia. Qed.

Lemma index_in_range {A : Type} (l : list A) (i : Z) :
  0 <= i < len l ->
  exists a, index l i = Ok a /\ nth_error l (Z.to_nat i) = Some a.
Proof.
  intros Hi. unfold index.
  destruct (i <? 0) eqn:E; [apply Z.ltb_lt in E; lia|]. rewrite E.
  destruct (nth_error l (Z.to_nat i)) as [a|] eqn:En.
  - now exists a.
  - apply nth_error_None in En. unfold len in Hi. lia.
Qed.

Lemma riddle_at_Some (bot : TreasureHuntBot) (pos : Z) (r : Riddle) :
  riddle_at bot pos = Some r <->
  0 <= pos < len (riddles bot) /\ nth_error (riddles bot) (Z.to_nat pos) = Some r.
Proof.
  unfold riddle_at.
  destruct (0 <=? pos) eqn:E1, (pos <? len (riddles bot)) eqn:E2; simpl;
    try apply Z.leb_le in E1; try apply Z.leb_gt in E1;
    try apply Z.ltb_lt in E2; try apply Z.ltb_ge in E2;
    split; try discriminate; try tauto; intros [? ?]; lia.
Qed.

Lemma riddle_at_None (bot : TreasureHuntBot) (pos : Z) :
  0 <= pos -> (riddle_at bot pos = None <-> len (riddles bot) <= pos).
Proof.
  intros Hpos. unfold riddle_at.
  destruct (0 <=? pos) eqn:E1; [|apply Z.leb_gt in E1; lia].
  destruct (pos <? len (riddles bot)) eqn:E2; simpl.
  - apply Z.ltb_lt in E2. split; [|lia].
    intros H. apply nth_error_None in H. unfold len in E2. lia.
  - apply Z.ltb_ge in E2. tauto.
Qed.

(** [get_current_riddle] reads the store and returns the catalog entry at
    the session's position. *)
Lemma get_current_riddle_eq (bot : TreasureHuntBot) (chat : Z) :
  (forall s, session_of bot chat = Some s -> 0 <= current_riddle s) ->
  get_current_riddle chat bot =
  Ok (match session_of bot chat with
      | None => None
      | Some s => riddle_at bot (current_riddle s)
      end, bot).
Proof.
  intros Hpos. unfold get_current_riddle. unmonad.
  destruct (dict_get (game_data bot) chat) as [s|] eqn:Es; [|reflexivity].
  specialize (Hpos s eq_refl).
  destruct (current_riddle s >=? len (riddles bot)) eqn:E.
  - apply Z.geb_le in E.
    assert (H : riddle_at bot (current_riddle s) = None)
      by now apply riddle_at_None.
    now rewrite H.
  - rewrite Z.geb_leb in E. apply Z.leb_gt in E.
    destruct (index_in_range (riddles bot) (current_riddle s)) as (r & Hi & Hn);
      [lia|].
    rewrite Hi. unfold riddle_at.
    replace (0 <=? current_riddle s) with true by (symmetry; apply Z.leb_le; lia).
    replace (current_riddle s <? len (riddles bot)) with true
      by (symmetry; apply Z.ltb_lt; lia).
    simpl. now rewrite Hn.
Qed.

Lemma advance_riddle_eq (bot : TreasureHuntBot) (now chat : Z) :
  advance_riddle now chat bot =
  match session_of bot chat with
  | None => Ok (false, bot)
  | Some s =>
      Ok (true, set_game_data bot
                  (dict_set (game_data bot) chat (advanced (riddles bot) now s)))
  end.
Proof.
  unfold advance_riddle. unmonad.
  destruct (dict_get (game_data bot) chat) as [s|]; [|reflexivity].
  unfold advanced. simpl.
  now destruct (current_riddle s + 1 >=? len (riddles bot)).
Qed.

Lemma session_of_store (bot : TreasureHuntBot) (chat : Z) (s : Session) :
  session_of (set_game_data bot (dict_set (game_data bot) chat s)) chat = Some s.
Proof. unfold session_of. simpl. apply dict_get_set_eq. Qed.

Lemma session_of_store_other (bot : TreasureHuntBot) (chat c : Z) (s : Session) :
  c <> chat ->
  session_of (set_game_data bot (dict_set (game_data bot) chat s)) c =
  session_of bot c.
Proof.
  intros Hne. unfold session_of. simpl. apply dict_get_set_neq. congruence.
Qed.

Lemma create_game_session_eq (bot : TreasureHuntBot) (now chat : Z) (name : string) :
  let session := {| team_name := name; current_riddle := 0; start_time := now;
                    completed_riddles := []; hints_used := 0;
                    status := active; end_time := None |} in
  create_game_session now chat name bot =
  Ok (session, set_game_data bot (dict_set (game_data bot) chat session)).
Proof. reflexivity. Qed.

Lemma run_cons (op : Op) (ops : list Op) (bot : TreasureHuntBot) :
  run (op :: ops) bot =
  match exec op bot with
  | Ok (_, bot') => run ops bot'
  | Raise e => Raise e
  end.
Proof.
  simpl. unfold bind. destruct (exec op bot) as [[[] bot']|e]; reflexivity.
Qed.

Lemma exec_advance (bot : TreasureHuntBot) (now chat : Z) :
  exec (OpAdvance now chat) bot =
  match session_of bot chat with
  | None => Ok (tt, bot)
  | Some s =>
      Ok (tt, set_game_data bot
                (dict_set (game_data bot) chat (advanced (riddles bot) now s)))
  end.
Proof.
  simpl. unfold bind. rewrite advance_riddle_eq.
  now destruct (session_of bot chat).
Qed.

(** [k] calls of [advance_riddle] move the session [k] positions on; the
    status changes, to [completed], when a call takes the position to the
    end of the catalog or past it. *)
Lemma advance_times_session (chat : Z) (times : list Z) :
  forall (bot : TreasureHuntBot) (s : Session),
    session_of bot chat = Some s ->
    exists bot' s',
      advance_times times chat bot = Ok (tt, bot') /\
      riddles bot' = riddles bot /\
      session_of bot' chat = Some s' /\
      current_riddle s' = current_riddle s + len times /\
      status s' =
        if (0 <? len times) && (len (riddles bot) <=? current_riddle s + len times)
        then completed else status s.
Proof.
  induction times as [|now times IH]; intros bot s Hs.
  - exists bot, s. repeat split; auto.
    unfold len; simpl. lia.
  - unfold advance_times in *. simpl map. rewrite run_cons, exec_advance, Hs.
    set (bot1 := set_game_data bot _).
    destruct (IH bot1 (advanced (riddles bot) now s))
      as (bot' & s' & Hrun & Hrs & Hs' & Hcur & Hst).
    { apply session_of_store. }
    exists bot', s'. split; [exact Hrun|]. split; [exact Hrs|].
    split; [exact Hs'|].
    cbn [advanced current_riddle status riddles set_game_data bot1] in Hcur, Hst, Hrs.
    assert (Hlen : len (now :: times) = len times + 1)
      by (unfold len; cbn [List.length]; lia).
    pose proof (len_nonneg times) as Hk.
    rewrite Hlen. split; [lia|]. rewrite Hst.
    replace (0 <? len times + 1) with true by (symmetry; apply Z.ltb_lt; lia).
    rewrite Z.geb_leb. simpl.
    replace (current_riddle s + 1 + len times)
      with (current_riddle s + (len times + 1)) by lia.
    destruct (0 <? len times) eqn:E0; simpl.
    + destruct (len (riddles bot) <=? current_riddle s + (len times + 1)) eqn:E1;
        [reflexivity|].
      apply Z.leb_gt in E1.
      replace (len (riddles bot) <=? current_riddle s + 1) with false
        by (symmetry; apply Z.leb_gt; lia).
      reflexivity.
    + apply Z.ltb_ge in E0. replace (len times) with 0 by lia.
      reflexivity.
Qed.

(** ** C1: [advance_riddle] *)

(** C1.  For every session, [advance_riddle] returns [True], appends the
    session's [current_riddle] to [completed_riddles] and adds one to
    [current_riddle]; it sets [status] to [completed] and stamps [end_time]
    with the clock exactly when the new position is at the catalog length
    (the code's [>=]), and otherwise leaves both as they were.  So from a
    new session, fewer calls than the catalog has riddles leave the status
    [active], and the call that makes as many calls as the catalog has
    riddles leaves it [completed]. *)
Theorem advance_riddle_completes_on_last :
  (forall (bot : TreasureHuntBot) (now chat : Z) (s : Session),
      session_of bot chat = Some s ->
      exists bot' s',
        advance_riddle now chat bot = Ok (true, bot') /\
        session_of bot' chat = Some s' /\
        completed_riddles s' = completed_riddles s ++ [current_riddle s] /\
        current_riddle s' = current_riddle s + 1 /\
        (len (riddles bot) <= current_riddle s' ->
         status s' = completed /\ end_time s' = Some now) /\
        (current_riddle s' < len (riddles bot) ->
         status s' = status s /\ end_time s' = end_time s)) /\
  (forall (bot : TreasureHuntBot) (t0 chat : Z) (name : string) (times : list Z),
      let play := create_game_session t0 chat name ;;; advance_times times chat in
      (len times < len (riddles bot) ->
       status_after play bot chat = Some active) /\
      (len times = len (riddles bot) -> 0 < len times ->
       status_after play bot chat = Some completed)).
Proof.
  split.
  - intros bot now chat s Hs. rewrite advance_riddle_eq, Hs.
    eexists. exists (advanced (riddles bot) now s).
    split; [reflexivity|]. split; [apply session_of_store|].
    simpl. repeat split; rewrite Z.geb_leb.
    + apply Z.leb_le in H. now rewrite H.
    + apply Z.leb_le in H. now rewrite H.
    + apply Z.leb_gt in H. now rewrite H.
    + apply Z.leb_gt in H. now rewrite H.
  - intros bot t0 chat name times play.
    set (fresh := {| team_name := name; current_riddle := 0; start_time := t0;
                     completed_riddles := []; hints_used := 0;
                     status := active; end_time := None |}).
    set (bot1 := set_game_data bot (dict_set (game_data bot) chat fresh)).
    destruct (advance_times_session chat times bot1 fresh)
      as (bot' & s' & Hrun & _ & Hs' & _ & Hst).
    { apply session_of_store. }
    assert (Hafter : status_after play bot chat = Some (status s')).
    { unfold status_after, final, play, bind.
      rewrite create_game_session_eq. fold fresh. fold bot1.
      rewrite Hrun. now rewrite Hs'. }
    rewrite Hafter, Hst. simpl.
    split.
    + intros Hlt.
      replace (len (riddles bot) <=? len times) with false
        by (symmetry; apply Z.leb_gt; lia).
      now rewrite andb_false_r.
    + intros Heq Hpos.
      replace (len (riddles bot) <=? len times) with true
        by (symmetry; apply Z.leb_le; lia).
      replace (0 <? len times) with true by (symmetry; apply Z.ltb_lt; lia).
      reflexivity.
Qed.

Lemma advance_riddle_completes_on_last_witness :
  status_after (create_game_session 0 7 "foo" ;;; advance_times [10; 20; 30] 7)
    (init load_riddles) 7 = Some active /\
  status_after (create_game_session 0 7 "foo" ;;; advance_times [10; 20; 30; 40] 7)
    (init load_riddles) 7 = Some completed.
Proof.
  split.
  - apply (proj2 advance_riddle_completes_on_last (init load_riddles) 0 7 "foo"
             [10; 20; 30]).
    vm_compute. reflexivity.
  - apply (proj2 advance_riddle_completes_on_last (init load_riddles) 0 7 "foo"
             [10; 20; 30; 40]); vm_compute; reflexivity.
Defined.

(** ** The invariant of the store *)

Lemma range_succ (p : Z) : 0 <= p -> range (p + 1) = range p ++ [p].
Proof.
  intros Hp. unfold range.
  replace (Z.to_nat (p + 1)) with (S (Z.to_nat p)) by lia.
  rewrite seq_S, map_app. simpl. now rewrite Z2Nat.id.
Qed.

Lemma range_length (p : Z) : 0 <= p -> len (range p) = p.
Proof.
  intros Hp. unfold range, len. rewrite length_map, length_seq. lia.
Qed.

Lemma fresh_session_inv (rs : list Riddle) (now : Z) (name : string) :
  session_inv rs {| team_name := name; current_riddle := 0; start_time := now;
                    completed_riddles := []; hints_used := 0;
                    status := active; end_time := None |}.
Proof.
  constructor; simpl; try lia; try reflexivity; try discriminate.
Qed.

Lemma advanced_session_inv (rs : list Riddle) (now : Z) (s : Session) :
  session_inv rs s -> session_inv rs (advanced rs now s).
Proof.
  intros [Hpos Hdone Hhints Hcomp Hact].
  constructor; simpl.
  - lia.
  - rewrite range_succ by exact Hpos. now rewrite Hdone.
  - exact Hhints.
  - rewrite Z.geb_leb.
    destruct (len rs <=? current_riddle s + 1) eqn:E.
    + apply Z.leb_le in E. intros _. split; [exact E | discriminate].
    + apply Z.leb_gt in E. intros Hst. destruct (Hcomp Hst). lia.
  - rewrite Z.geb_leb.
    destruct (len rs <=? current_riddle s + 1) eqn:E; [discriminate|].
    apply Z.leb_gt in E. intros _. now left.
Qed.

Lemma hinted_session_inv (rs : list Riddle) (s : Session) :
  session_inv rs s -> session_inv rs (set_hints_used s (hints_used s + 1)).
Proof.
  intros [Hpos Hdone Hhints Hcomp Hact]. constructor; simpl; auto. lia.
Qed.

Lemma bot_inv_session (rs : list Riddle) (bot : TreasureHuntBot) (chat : Z)
  (s : Session) :
  bot_inv rs bot -> session_of bot chat = Some s -> session_inv rs s.
Proof.
  intros [_ _ Hs] Hget.
  exact (dict_get_Forall (fun it => session_inv rs (snd it)) _ _ _ Hs Hget).
Qed.

Lemma bot_inv_store (rs : list Riddle) (bot : TreasureHuntBot) (chat : Z)
  (s : Session) :
  bot_inv rs bot -> session_inv rs s ->
  bot_inv rs (set_game_data bot (dict_set (game_data bot) chat s)).
Proof.
  intros [Hr Hk Hs] Hinv. constructor; simpl.
  - exact Hr.
  - now apply dict_set_NoDup.
  - now apply dict_set_Forall.
Qed.

Lemma bot_inv_init (rs : list Riddle) : bot_inv rs (init rs).
Proof. constructor; simpl; [reflexivity | constructor | constructor]. Qed.

Lemma bot_inv_pos (rs : list Riddle) (bot : TreasureHuntBot) (chat : Z) :
  bot_inv rs bot ->
  forall s, session_of bot chat = Some s -> 0 <= current_riddle s.
Proof. intros Hinv s Hs. exact (inv_pos _ _ (bot_inv_session _ _ _ _ Hinv Hs)). Qed.

(** [validate_qr_code] compares with the code of the current riddle. *)
Lemma validate_qr_code_eq (bot : TreasureHuntBot) (chat : Z) (code : string) :
  (forall s, session_of bot chat = Some s -> 0 <= current_riddle s) ->
  validate_qr_code chat code bot =
  Ok (match session_of bot chat with
      | None => false
      | Some s => match riddle_at bot (current_riddle s) with
                  | None => false
                  | Some r => str_eq code (qr_code r)
                  end
      end, bot).
Proof.
  intros Hpos. unfold validate_qr_code, bind.
  rewrite get_current_riddle_eq by exact Hpos.
  destruct (session_of bot chat) as [s|]; [|reflexivity].
  now destruct (riddle_at bot (current_riddle s)).
Qed.

(** The hint paths add one to [hints_used] when there is a current
    riddle. *)
Lemma use_hint_eq (bot : TreasureHuntBot) (chat : Z) :
  (forall s, session_of bot chat = Some s -> 0 <= current_riddle s) ->
  use_hint chat bot =
  match session_of bot chat with
  | None => Ok (NoRiddleForHint, bot)
  | Some s =>
      match riddle_at bot (current_riddle s) with
      | None => Ok (NoRiddleForHint, bot)
      | Some r =>
          Ok (HintGiven (hint r),
              set_game_data bot
                (dict_set (game_data bot) chat
                   (set_hints_used s (hints_used s + 1))))
      end
  end.
Proof.
  intros Hpos. unfold use_hint, bind.
  rewrite get_current_riddle_eq by exact Hpos.
  destruct (session_of bot chat) as [s|] eqn:Es; [|reflexivity].
  destruct (riddle_at bot (current_riddle s)); [|reflexivity].
  unfold add_hint. unmonad. now rewrite Es.
Qed.

(** The answer part of [handle_message] only reads the store. *)
Lemma submit_answer_eq (bot : TreasureHuntBot) (chat : Z) (text : string) :
  (forall s, session_of bot chat = Some s -> 0 <= current_riddle s) ->
  submit_answer chat text bot =
  Ok (match session_of bot chat with
      | None => NoActiveGame
      | Some s =>
          match status s with
          | completed => NoActiveGame
          | active =>
              match riddle_at bot (current_riddle s) with
              | None => AllSolved
              | Some r => if str_eq text (correct_answer r)
                          then AnswerCorrect (map_path r) else AnswerWrong
              end
          end
      end, bot).
Proof.
  intros Hpos. unfold submit_answer.
  pose proof (get_current_riddle_eq bot chat Hpos) as Hcur.
  unmonad.
  destruct (dict_get (game_data bot) chat) as [s|] eqn:Es; [|reflexivity].
  destruct (status s); simpl; [|reflexivity].
  rewrite Hcur.
  destruct (riddle_at bot (current_riddle s)); [|reflexivity].
  now destruct (str_eq text (correct_answer r)).
Qed.

(** With every completed session carrying an [end_time], the loop of
    [get_leaderboard] does not raise. *)
Lemma completed_games_ok (rs : list Riddle) (its : list (Z * Session)) :
  Forall (fun it => session_inv rs (snd it)) its ->
  exists games, completed_games its = Ok games.
Proof.
  induction 1 as [|[chat s] its Hs _ IH]; simpl.
  - now exists [].
  - destruct IH as (games & ->).
    destruct (status s) eqn:Est; simpl; [now exists games|].
    destruct (inv_completed _ _ Hs Est) as [_ Hend].
    simpl in Hend. destruct (end_time s) as [t|]; [|now elim Hend].
    eexists. reflexivity.
Qed.

Lemma get_leaderboard_frame (bot : TreasureHuntBot) (board : list Entry)
  (bot' : TreasureHuntBot) :
  get_leaderboard bot = Ok (board, bot') -> bot' = bot.
Proof.
  unfold get_leaderboard. unmonad. unfold items.
  destruct (completed_games (game_data bot)); [|discriminate].
  now intros [= _ <-].
Qed.

(** Under the invariant no operation raises, and the invariant holds
    afterwards. *)
Lemma exec_inv (rs : list Riddle) (op : Op) (bot : TreasureHuntBot) :
  bot_inv rs bot ->
  exists bot', exec op bot = Ok (tt, bot') /\ bot_inv rs bot'.
Proof.
  intros Hinv. pose proof (inv_riddles _ _ Hinv) as Hrs.
  destruct op as [now chat name|now chat|chat|chat text|chat code|chat|];
    cbn [exec]; unfold bind at 1.
  - rewrite create_game_session_eq. eexists. split; [reflexivity|].
    apply bot_inv_store; [exact Hinv | apply fresh_session_inv].
  - rewrite advance_riddle_eq.
    destruct (session_of bot chat) as [s|] eqn:Es.
    + eexists. split; [reflexivity|]. apply bot_inv_store; [exact Hinv|].
      rewrite Hrs. apply advanced_session_inv.
      exact (bot_inv_session _ _ _ _ Hinv Es).
    + now exists bot.
  - rewrite use_hint_eq by (now apply (bot_inv_pos rs)).
    destruct (session_of bot chat) as [s|] eqn:Es; [|now exists bot].
    destruct (riddle_at bot (current_riddle s)); [|now exists bot].
    eexists. split; [reflexivity|]. apply bot_inv_store; [exact Hinv|].
    apply hinted_session_inv. exact (bot_inv_session _ _ _ _ Hinv Es).
  - rewrite submit_answer_eq by (now apply (bot_inv_pos rs)). now exists bot.
  - rewrite validate_qr_code_eq by (now apply (bot_inv_pos rs)). now exists bot.
  - rewrite get_current_riddle_eq by (now apply (bot_inv_pos rs)). now exists bot.
  - unfold get_leaderboard. unmonad. unfold items.
    destruct (completed_games_ok rs (game_data bot) (inv_sessions _ _ Hinv))
      as (games & ->).
    now exists bot.
Qed.

Lemma reachable_inv (rs : list Riddle) (bot : TreasureHuntBot) :
  reachable rs bot -> bot_inv rs bot.
Proof.
  induction 1 as [|bot op bot' _ IH Hex].
  - apply bot_inv_init.
  - destruct (exec_inv rs op bot IH) as (bot1 & Hex1 & Hinv1).
    rewrite Hex in Hex1. now injection Hex1 as <-.
Qed.

(** What one operation does to the session of a chat: nothing, unless it is
    [create_game_session], [advance_riddle] or a hint for that chat. *)
Lemma exec_cases (rs : list Riddle) (op : Op) (bot bot' : TreasureHuntBot)
  (chat : Z) :
  bot_inv rs bot -> exec op bot = Ok (tt, bot') ->
  session_of bot' chat = session_of bot chat
  \/ (exists now name, op = OpCreate now chat name /\
        session_of bot' chat = Some (new_session now name))
  \/ (exists now s, op = OpAdvance now chat /\
        session_of bot chat = Some s /\
        session_of bot' chat = Some (advanced rs now s))
  \/ (exists s r, op = OpHint chat /\
        session_of bot chat = Some s /\
        riddle_at bot (current_riddle s) = Some r /\
        session_of bot' chat = Some (set_hints_used s (hints_used s + 1))).
Proof.
  intros Hinv. pose proof (inv_riddles _ _ Hinv) as Hrs.
  pose proof (bot_inv_pos rs bot) as Hpos.
  destruct op as [now c name|now c|c|c text|c code|c|];
    cbn [exec]; unfold bind at 1.
  - rewrite create_game_session_eq. intros [= <-].
    destruct (Z.eq_dec c chat) as [->|Hne].
    + right; left. exists now, name. split; [reflexivity|].
      apply session_of_store.
    + left. now apply session_of_store_other.
  - rewrite advance_riddle_eq.
    destruct (session_of bot c) as [s|] eqn:Es; intros [= <-]; [|now left].
    destruct (Z.eq_dec c chat) as [->|Hne].
    + right; right; left. exists now, s. rewrite <- Hrs.
      repeat split; auto using session_of_store.
    + left. now apply session_of_store_other.
  - rewrite use_hint_eq by (now apply Hpos).
    destruct (session_of bot c) as [s|] eqn:Es; [|intros [= <-]; now left].
    destruct (riddle_at bot (current_riddle s)) as [r|] eqn:Er;
      intros [= <-]; [|now left].
    destruct (Z.eq_dec c chat) as [->|Hne].
    + right; right; right. exists s, r.
      repeat split; auto using session_of_store.
    + left. now apply session_of_store_other.
  - rewrite submit_answer_eq by (now apply Hpos). intros [= <-]. now left.
  - rewrite validate_qr_code_eq by (now apply Hpos). intros [= <-]. now left.
  - rewrite get_current_riddle_eq by (now apply Hpos). intros [= <-]. now left.
  - destruct (get_leaderboard bot) as [[board b]|] eqn:E; [|discriminate].
    apply get_leaderboard_frame in E. subst b. intros [= <-]. now left.
Qed.

Lemma reachable_run (rs : list Riddle) (ops : list Op) :
  forall bot bot',
    reachable rs bot -> run ops bot = Ok (tt, bot') -> reachable rs bot'.
Proof.
  induction ops as [|op ops IH]; intros bot bot' Hreach Hrun.
  - injection Hrun as <-. exact Hreach.
  - rewrite run_cons in Hrun.
    destruct (exec op bot) as [[[] bot1]|e] eqn:Eex; [|discriminate].
    apply (IH bot1); [|exact Hrun].
    now apply (reach_step rs bot op).
Qed.

Lemma reachable_from_init (rs : list Riddle) (ops : list Op)
  (bot : TreasureHuntBot) :
  run ops (init rs) = Ok (tt, bot) -> reachable rs bot.
Proof. apply reachable_run. apply reach_init. Qed.

Lemma at_start_reachable : reachable load_riddles at_start.
Proof. apply (reachable_from_init load_riddles to_start). vm_compute. reflexivity. Qed.

Lemma at_park_reachable : reachable load_riddles at_park.
Proof. apply (reachable_from_init load_riddles to_park). vm_compute. reflexivity. Qed.

Lemma at_cafe_reachable : reachable load_riddles at_cafe.
Proof. apply (reachable_from_init load_riddles to_cafe). vm_compute. reflexivity. Qed.

Lemma at_end_reachable : reachable load_riddles at_end.
Proof. apply (reachable_from_init load_riddles to_end). vm_compute. reflexivity. Qed.

Lemma at_last_reachable : reachable load_riddles at_last.
Proof. apply (reachable_from_init load_riddles to_last). vm_compute. reflexivity. Qed.

Lemma two_finished_reachable : reachable load_riddles two_finished.
Proof.
  apply (reachable_from_init load_riddles to_two_finished).
  vm_compute. reflexivity.
Qed.

(** ** C10: the positions cleared *)

(** C10.  In every state the engine reaches from a new bot, every session
    has as many [completed_riddles] as its [current_riddle] says, and they
    are 0, 1, ..., [current_riddle - 1] in this order.
    [create_game_session] starts a session at position 0 with an empty
    list, and an operation that changes either field of a session that is
    there is [advance_riddle], which appends and adds one together, or
    [create_game_session], which starts over. *)
Theorem completed_riddles_are_the_positions_below
  (rs : list Riddle) (bot : TreasureHuntBot) (chat : Z) (s : Session) :
  reachable rs bot ->
  session_of bot chat = Some s ->
  (current_riddle s = len (completed_riddles s) /\
   completed_riddles s = range (current_riddle s)) /\
  (forall now name,
      exists bot1 s1,
        create_game_session now chat name bot = Ok (s1, bot1) /\
        session_of bot1 chat = Some s1 /\
        current_riddle s1 = 0 /\ completed_riddles s1 = []) /\
  (forall op bot' s',
      exec op bot = Ok (tt, bot') ->
      session_of bot' chat = Some s' ->
      current_riddle s' <> current_riddle s \/
      completed_riddles s' <> completed_riddles s ->
      (exists now, op = OpAdvance now chat /\
                   current_riddle s' = current_riddle s + 1 /\
                   completed_riddles s' = completed_riddles s ++ [current_riddle s])
      \/ (exists now name, op = OpCreate now chat name)).
Proof.
  intros Hreach Hs. pose proof (reachable_inv _ _ Hreach) as Hinv.
  pose proof (bot_inv_session _ _ _ _ Hinv Hs) as Hsi.
  split; [|split].
  - split; [|exact (inv_done _ _ Hsi)].
    rewrite (inv_done _ _ Hsi).
    symmetry. apply range_length. exact (inv_pos _ _ Hsi).
  - intros now name. rewrite create_game_session_eq.
    eexists. eexists. split; [reflexivity|].
    split; [apply session_of_store|]. split; reflexivity.
  - intros op bot' s' Hex Hs' Hchg.
    destruct (exec_cases rs op bot bot' chat Hinv Hex)
      as [Hsame | [(now & name & Hop & _) | [(now & s0 & Hop & Hs0 & Hadv)
                                            | (s0 & r & _ & Hs0 & _ & Hh)]]].
    + rewrite Hs, Hs' in Hsame. injection Hsame as ->. tauto.
    + right. now exists now, name.
    + left. exists now. rewrite Hs in Hs0. injection Hs0 as <-.
      rewrite Hs' in Hadv. injection Hadv as ->. now repeat split.
    + rewrite Hs in Hs0. injection Hs0 as <-.
      rewrite Hs' in Hh. injection Hh as ->. simpl in Hchg. tauto.
Qed.

Lemma completed_riddles_are_the_positions_below_witness :
  session_of at_cafe 7 = Some session_at_cafe /\
  current_riddle session_at_cafe = len (completed_riddles session_at_cafe) /\
  completed_riddles session_at_cafe = range (current_riddle session_at_cafe).
Proof.
  assert (Hs : session_of at_cafe 7 = Some session_at_cafe)
    by (vm_compute; reflexivity).
  split; [exact Hs|].
  exact (proj1 (completed_riddles_are_the_positions_below
                  load_riddles at_cafe 7 session_at_cafe at_cafe_reachable Hs)).
Defined.

(** ** C2: [validate_qr_code] *)

(** C2.  In every state the engine reaches, for every chat and every
    submitted string, [validate_qr_code] returns without raising and leaves
    the bot as it was; it returns [True] exactly when the chat has a
    session whose position is below the catalog length and the string is
    equal, character for character, to the [qr_code] of the riddle at that
    position.  That riddle is the current riddle: [get_current_riddle]
    returns it, and returns a riddle in no other case. *)
Theorem validate_qr_code_exact
  (rs : list Riddle) (bot : TreasureHuntBot) (chat : Z) (code : string) :
  reachable rs bot ->
  exists b,
    validate_qr_code chat code bot = Ok (b, bot) /\
    (b = true <->
     exists s r,
       session_of bot chat = Some s /\
       current_riddle s < len (riddles bot) /\
       nth_error (riddles bot) (Z.to_nat (current_riddle s)) = Some r /\
       code = qr_code r) /\
    (exists cur, get_current_riddle chat bot = Ok (cur, bot)) /\
    (forall r,
        get_current_riddle chat bot = Ok (Some r, bot) <->
        exists s,
          session_of bot chat = Some s /\
          current_riddle s < len (riddles bot) /\
          nth_error (riddles bot) (Z.to_nat (current_riddle s)) = Some r).
Proof.
  intros Hreach. pose proof (reachable_inv _ _ Hreach) as Hinv.
  pose proof (bot_inv_pos rs bot chat Hinv) as Hpos.
  rewrite validate_qr_code_eq, get_current_riddle_eq by exact Hpos.
  eexists. split; [reflexivity|].
  destruct (session_of bot chat) as [s|] eqn:Es.
  - specialize (Hpos s eq_refl).
    destruct (riddle_at bot (current_riddle s)) as [r|] eqn:Er.
    + pose proof (proj1 (riddle_at_Some _ _ _) Er) as [Hrange Hnth].
      split; [|split].
      * split.
        -- intros Heq. apply String.eqb_eq in Heq.
           exists s, r. repeat split; auto. lia.
        -- intros (s' & r' & [= <-] & _ & Hnth' & ->).
           rewrite Hnth in Hnth'. injection Hnth' as <-.
           apply String.eqb_refl.
      * now eexists.
      * intros r'. split.
        -- intros [= <-]. exists s. repeat split; auto. lia.
        -- intros (s' & [= <-] & _ & Hnth'). congruence.
    + pose proof (proj1 (riddle_at_None bot _ Hpos) Er) as Hge.
      split; [|split].
      * split; [discriminate|]. intros (s' & r' & [= <-] & Hlt & _). lia.
      * now eexists.
      * intros r'. split; [discriminate|].
        intros (s' & [= <-] & Hlt & _). lia.
  - split; [|split].
    + split; [discriminate|]. intros (s' & _ & Habs & _). discriminate.
    + now eexists.
    + intros r'. split; [discriminate|]. intros (s' & Habs & _). discriminate.
Qed.

Lemma validate_qr_code_exact_witness :
  validate_qr_code 7 "TREASURE_HUNT_LOC_1_PARK" at_park = Ok (true, at_park) /\
  validate_qr_code 7 "treasure_hunt_loc_1_park" at_park = Ok (false, at_park) /\
  validate_qr_code 7 "TREASURE_HUNT_LOC_4_START" at_last = Ok (true, at_last).
Proof.
  destruct (validate_qr_code_exact load_riddles at_park 7
              "TREASURE_HUNT_LOC_1_PARK" at_park_reachable)
    as (b & Hb & Hiff & _).
  destruct (validate_qr_code_exact load_riddles at_park 7
              "treasure_hunt_loc_1_park" at_park_reachable)
    as (b' & Hb' & Hiff' & _).
  destruct (validate_qr_code_exact load_riddles at_last 7
              "TREASURE_HUNT_LOC_4_START" at_last_reachable)
    as (b3 & Hb3 & Hiff3 & _).
  rewrite Hb, Hb', Hb3. split; [|split].
  - f_equal. f_equal. apply Hiff.
    eexists. eexists. split; [vm_compute; reflexivity|].
    split; [vm_compute; reflexivity|]. split; vm_compute; reflexivity.
  - destruct b'; [|reflexivity].
    destruct (proj1 Hiff' eq_refl) as (s & r & Hs & _ & Hnth & Hcode).
    vm_compute in Hs. injection Hs as <-.
    vm_compute in Hnth. injection Hnth as <-.
    vm_compute in Hcode. discriminate Hcode.
  - f_equal. f_equal. apply Hiff3.
    eexists. eexists. split; [vm_compute; reflexivity|].
    split; [vm_compute; reflexivity|]. split; vm_compute; reflexivity.
Defined.

(** ** C5: [completed] is final *)

Lemma completed_no_riddle (rs : list Riddle) (bot : TreasureHuntBot)
  (chat : Z) (s : Session) :
  bot_inv rs bot -> session_of bot chat = Some s -> status s = completed ->
  riddle_at bot (current_riddle s) = None.
Proof.
  intros Hinv Hs Hst.
  pose proof (bot_inv_session _ _ _ _ Hinv Hs) as Hsi.
  destruct (inv_completed _ _ Hsi Hst) as [Hlen _].
  apply riddle_at_None; [exact (inv_pos _ _ Hsi)|].
  now rewrite (inv_riddles _ _ Hinv).
Qed.

Lemma completed_stays (rs : list Riddle) (op : Op) (bot bot' : TreasureHuntBot)
  (chat : Z) (s : Session) :
  bot_inv rs bot -> session_of bot chat = Some s -> status s = completed ->
  creates chat op = false -> exec op bot = Ok (tt, bot') ->
  exists s', session_of bot' chat = Some s' /\ status s' = completed.
Proof.
  intros Hinv Hs Hst Hcr Hex.
  destruct (exec_cases rs op bot bot' chat Hinv Hex)
    as [Hsame | [(now & name & -> & _) | [(now & s0 & _ & Hs0 & Hadv)
                                         | (s0 & r & _ & Hs0 & _ & Hh)]]].
  - exists s. split; congruence.
  - simpl in Hcr. rewrite Z.eqb_refl in Hcr. discriminate.
  - rewrite Hs in Hs0. injection Hs0 as <-.
    eexists. split; [exact Hadv|]. simpl. rewrite Hst.
    now destruct (current_riddle s + 1 >=? len rs).
  - rewrite Hs in Hs0. injection Hs0 as <-.
    eexists. split; [exact Hh|]. exact Hst.
Qed.

Lemma completed_stays_run (rs : list Riddle) (chat : Z) (ops : list Op) :
  forall (bot : TreasureHuntBot) (s : Session),
    bot_inv rs bot -> session_of bot chat = Some s -> status s = completed ->
    forallb (fun op => negb (creates chat op)) ops = true ->
    exists bot' s',
      run ops bot = Ok (tt, bot') /\ bot_inv rs bot' /\
      session_of bot' chat = Some s' /\ status s' = completed.
Proof.
  induction ops as [|op ops IH]; intros bot s Hinv Hs Hst Hall.
  - exists bot, s. split; [reflexivity|]. now split; [|split].
  - simpl in Hall. apply andb_true_iff in Hall as [Hop Hall].
    apply negb_true_iff in Hop.
    destruct (exec_inv rs op bot Hinv) as (bot1 & Hex & Hinv1).
    destruct (completed_stays rs op bot bot1 chat s Hinv Hs Hst Hop Hex)
      as (s1 & Hs1 & Hst1).
    destruct (IH bot1 s1 Hinv1 Hs1 Hst1 Hall) as (bot' & s' & Hrun & H').
    exists bot', s'. split; [|exact H'].
    now rewrite run_cons, Hex.
Qed.

(** C5.  Once a session is [completed], whatever the engine does next
    other than creating a session for the same chat anew ([advance_riddle],
    hints, answers, [validate_qr_code], for this chat or another) leaves it
    [completed].  For such a session [get_current_riddle] returns [None],
    an answer gets the reply for no active game, and [validate_qr_code]
    returns [False]. *)
Theorem completed_is_final
  (rs : list Riddle) (bot : TreasureHuntBot) (chat : Z) (s : Session)
  (ops : list Op) :
  reachable rs bot ->
  session_of bot chat = Some s ->
  status s = completed ->
  forallb (fun op => negb (creates chat op)) ops = true ->
  exists bot' s',
    run ops bot = Ok (tt, bot') /\
    session_of bot' chat = Some s' /\
    status s' = completed /\
    get_current_riddle chat bot' = Ok (None, bot') /\
    (forall text, submit_answer chat text bot' = Ok (NoActiveGame, bot')) /\
    (forall code, validate_qr_code chat code bot' = Ok (false, bot')).
Proof.
  intros Hreach Hs Hst Hall.
  pose proof (reachable_inv _ _ Hreach) as Hinv.
  destruct (completed_stays_run rs chat ops bot s Hinv Hs Hst Hall)
    as (bot' & s' & Hrun & Hinv' & Hs' & Hst').
  exists bot', s'.
  pose proof (bot_inv_pos rs bot' chat Hinv') as Hpos.
  pose proof (completed_no_riddle rs bot' chat s' Hinv' Hs' Hst') as Hnone.
  repeat split; auto.
  - rewrite get_current_riddle_eq by exact Hpos. now rewrite Hs', Hnone.
  - intros text. rewrite submit_answer_eq by exact Hpos.
    now rewrite Hs', Hst'.
  - intros code. rewrite validate_qr_code_eq by exact Hpos.
    now rewrite Hs', Hnone.
Qed.

Lemma completed_is_final_witness :
  exists bot' s',
    run [OpAdvance 50 7; OpHint 7; OpAnswer 7 "park";
         OpValidate 7 "TREASURE_HUNT_LOC_4_START"; OpCreate 60 8 "bar"] at_end
    = Ok (tt, bot') /\
    session_of bot' 7 = Some s' /\ status s' = completed.
Proof.
  assert (Hs : session_of at_end 7 = Some session_at_end)
    by (vm_compute; reflexivity).
  destruct (completed_is_final load_riddles at_end 7 session_at_end
              [OpAdvance 50 7; OpHint 7; OpAnswer 7 "park";
               OpValidate 7 "TREASURE_HUNT_LOC_4_START"; OpCreate 60 8 "bar"]
              at_end_reachable Hs eq_refl eq_refl)
    as (bot' & s' & Hrun & Hs' & Hst' & _).
  exists bot', s'. split; [exact Hrun|]. split; [exact Hs' | exact Hst'].
Defined.

(** ** The sort of [get_leaderboard] *)

Section Sorting.

Context {A : Type} (k : A -> Z * Z).

Lemma tuple_lt_spec (a b : Z * Z) :
  tuple_lt a b = true <->
  fst a < fst b \/ (fst a = fst b /\ snd a < snd b).
Proof.
  unfold tuple_lt.
  rewrite orb_true_iff, andb_true_iff, !Z.ltb_lt, Z.eqb_eq. tauto.
Qed.

Lemma tuple_le_spec (a b : Z * Z) :
  tuple_le a b = true <->
  fst a < fst b \/ (fst a = fst b /\ snd a <= snd b).
Proof.
  unfold tuple_le. rewrite negb_true_iff.
  destruct (tuple_lt b a) eqn:E.
  - apply tuple_lt_spec in E. split; [discriminate | lia].
  - split; [intros _ | reflexivity].
    assert (H : ~ (fst b < fst a \/ (fst b = fst a /\ snd b < snd a))).
    { rewrite <- tuple_lt_spec. congruence. }
    lia.
Qed.

Lemma tuple_eqb_spec (a b : Z * Z) : tuple_eqb a b = true <-> a = b.
Proof.
  unfold tuple_eqb. rewrite andb_true_iff, !Z.eqb_eq.
  destruct a, b; simpl. split; [intros [-> ->]; reflexivity | now intros [= -> ->]].
Qed.

Lemma tuple_le_trans (a b c : Z * Z) :
  tuple_le a b = true -> tuple_le b c = true -> tuple_le a c = true.
Proof. rewrite !tuple_le_spec. lia. Qed.

Lemma insert_by_perm (x : A) (l : list A) :
  Permutation (insert_by k x l) (x :: l).
Proof.
  induction l as [|y l IH]; simpl; [reflexivity|].
  destruct (tuple_lt (k y) (k x)); [|reflexivity].
  rewrite IH. apply perm_swap.
Qed.

Lemma sort_by_perm (l : list A) : Permutation (sort_by k l) l.
Proof.
  induction l as [|x l IH]; simpl; [reflexivity|].
  rewrite insert_by_perm. now constructor.
Qed.

Lemma insert_by_sorted (x : A) (l : list A) :
  StronglySorted (key_le k) l -> StronglySorted (key_le k) (insert_by k x l).
Proof.
  induction 1 as [|y l Hs IH Hall]; simpl.
  - repeat constructor.
  - destruct (tuple_lt (k y) (k x)) eqn:E.
    + constructor; [exact IH|].
      rewrite Forall_forall. intros z Hz.
      apply (Permutation_in _ (insert_by_perm x l)) in Hz.
      destruct Hz as [<-|Hz].
      * unfold key_le. apply tuple_le_spec. apply tuple_lt_spec in E. lia.
      * rewrite Forall_forall in Hall. now apply Hall.
    + assert (Hxy : key_le k x y) by (unfold key_le, tuple_le; now rewrite E).
      constructor; [now constructor|].
      constructor; [exact Hxy|].
      rewrite Forall_forall in *. intros z Hz.
      apply (tuple_le_trans _ (k y)); [exact Hxy | now apply Hall].
Qed.

Lemma sort_by_sorted (l : list A) : StronglySorted (key_le k) (sort_by k l).
Proof.
  induction l as [|x l IH]; simpl; [constructor|].
  now apply insert_by_sorted.
Qed.

(** The sort is stable: the elements with one key come out in the order
    they went in. *)
Lemma insert_by_stable (kk : Z * Z) (x : A) (l : list A) :
  filter (fun e => tuple_eqb (k e) kk) (insert_by k x l) =
  filter (fun e => tuple_eqb (k e) kk) (x :: l).
Proof.
  induction l as [|y l IH]; [reflexivity|].
  cbn [insert_by]. destruct (tuple_lt (k y) (k x)) eqn:E; [|reflexivity].
  cbn [filter] in *. rewrite IH.
  destruct (tuple_eqb (k x) kk) eqn:Ex; [|reflexivity].
  destruct (tuple_eqb (k y) kk) eqn:Ey; [|reflexivity].
  apply tuple_eqb_spec in Ex, Ey. rewrite Ex, Ey in E.
  apply tuple_lt_spec in E. lia.
Qed.

Lemma sort_by_stable (kk : Z * Z) (l : list A) :
  filter (fun e => tuple_eqb (k e) kk) (sort_by k l) =
  filter (fun e => tuple_eqb (k e) kk) l.
Proof.
  induction l as [|x l IH]; [reflexivity|].
  cbn [sort_by]. rewrite insert_by_stable. cbn [filter]. now rewrite IH.
Qed.

Lemma sorted_nth_le (l : list A) :
  StronglySorted (key_le k) l ->
  forall i j a b,
    nth_error l i = Some a -> nth_error l j = Some b -> (i < j)%nat ->
    key_le k a b.
Proof.
  induction 1 as [|x l Hs IH Hall]; intros i j a b Hi Hj Hlt.
  - destruct i; discriminate.
  - destruct j as [|j]; [lia|]. simpl in Hj.
    destruct i as [|i]; simpl in Hi.
    + injection Hi as <-. rewrite Forall_forall in Hall.
      apply Hall. eapply nth_error_In. exact Hj.
    + apply (IH i j); auto. lia.
Qed.

Lemma tuple_eqb_refl (a : Z * Z) : tuple_eqb a a = true.
Proof. now apply tuple_eqb_spec. Qed.

Lemma tuple_le_antisym (a b : Z * Z) :
  tuple_le a b = true -> tuple_le b a = true -> a = b.
Proof.
  rewrite !tuple_le_spec. destruct a, b; simpl. intros H1 H2.
  f_equal; lia.
Qed.

Lemma sorted_head_le (x y : A) (l : list A) :
  StronglySorted (key_le k) (y :: l) -> In x (y :: l) -> key_le k y x.
Proof.
  intros Hs [<-|Hin].
  - unfold key_le. apply tuple_le_spec. lia.
  - apply StronglySorted_inv in Hs as [_ Hall].
    rewrite Forall_forall in Hall. now apply Hall.
Qed.

(** There is one sorted list with the elements of each key in a given
    order: whatever algorithm [list.sort] runs, a stable sort returns what
    [sort_by] returns. *)
Lemma stable_sorted_unique (l1 : list A) :
  forall l2,
    StronglySorted (key_le k) l1 -> StronglySorted (key_le k) l2 ->
    (forall kk, filter (fun e => tuple_eqb (k e) kk) l1 =
                filter (fun e => tuple_eqb (k e) kk) l2) ->
    l1 = l2.
Proof.
  induction l1 as [|x l1 IH]; intros [|y l2] H1 H2 Hf.
  - reflexivity.
  - specialize (Hf (k y)). cbn [filter] in Hf.
    rewrite tuple_eqb_refl in Hf. discriminate.
  - specialize (Hf (k x)). cbn [filter] in Hf.
    rewrite tuple_eqb_refl in Hf. discriminate.
  - assert (Hx : In x (y :: l2)).
    { pose proof (Hf (k x)) as H. cbn [filter] in H.
      rewrite tuple_eqb_refl in H.
      assert (Hin : In x (if tuple_eqb (k y) (k x)
                          then y :: filter (fun e => tuple_eqb (k e) (k x)) l2
                          else filter (fun e => tuple_eqb (k e) (k x)) l2))
        by (rewrite <- H; now left).
      destruct (tuple_eqb (k y) (k x)).
      - destruct Hin as [->|Hin]; [now left|].
        right. now apply filter_In in Hin.
      - right. now apply filter_In in Hin. }
    assert (Hy : In y (x :: l1)).
    { pose proof (Hf (k y)) as H. cbn [filter] in H.
      rewrite tuple_eqb_refl in H.
      assert (Hin : In y (if tuple_eqb (k x) (k y)
                          then x :: filter (fun e => tuple_eqb (k e) (k y)) l1
                          else filter (fun e => tuple_eqb (k e) (k y)) l1))
        by (rewrite H; now left).
      destruct (tuple_eqb (k x) (k y)).
      - destruct Hin as [->|Hin]; [now left|].
        right. now apply filter_In in Hin.
      - right. now apply filter_In in Hin. }
    assert (Hk : k y = k x).
    { apply tuple_le_antisym.
      - exact (sorted_head_le x y l2 H2 Hx).
      - exact (sorted_head_le y x l1 H1 Hy). }
    assert (Hxy : x = y).
    { pose proof (Hf (k x)) as H. cbn [filter] in H.
      rewrite Hk, tuple_eqb_refl in H. now injection H. }
    subst y. f_equal.
    apply StronglySorted_inv in H1 as [H1 _].
    apply StronglySorted_inv in H2 as [H2 _].
    apply IH; [exact H1 | exact H2|].
    intros kk. specialize (Hf kk). cbn [filter] in Hf.
    destruct (tuple_eqb (k x) kk); [now injection Hf | exact Hf].
Qed.

Lemma sort_by_unique (l l' : list A) :
  StronglySorted (key_le k) l' ->
  (forall kk, filter (fun e => tuple_eqb (k e) kk) l' =
              filter (fun e => tuple_eqb (k e) kk) l) ->
  l' = sort_by k l.
Proof.
  intros Hs Hf. apply stable_sorted_unique; [exact Hs | apply sort_by_sorted|].
  intros kk. now rewrite sort_by_stable.
Qed.

End Sorting.

(** ** C6: hints *)

Lemma hint_command_eq (bot : TreasureHuntBot) (w : bool) (chat : Z) :
  hint_command chat {| bot_instance := Some bot; waiting_for_team_name := w |} =
  match use_hint chat bot with
  | Ok (reply, bot') =>
      Ok (reply, {| bot_instance := Some bot'; waiting_for_team_name := w |})
  | Raise e => Raise e
  end.
Proof. reflexivity. Qed.

Lemma button_hint_eq (ctx : Context) (chat : Z) :
  button_callback chat "hint" ctx = hint_command chat ctx.
Proof.
  unfold button_callback, hint_command, bind, get.
  now destruct (no_instance ctx).
Qed.

Lemma set_hints_used_same (s : Session) : set_hints_used s (hints_used s + 0) = s.
Proof. destruct s. unfold set_hints_used. simpl. now rewrite Z.add_0_r. Qed.

Lemma hints_run (rs : list Riddle) (chat : Z) (n : nat) :
  forall (bot : TreasureHuntBot) (s : Session) (r : Riddle),
    bot_inv rs bot -> session_of bot chat = Some s ->
    riddle_at bot (current_riddle s) = Some r ->
    exists bot',
      run (repeat (OpHint chat) n) bot = Ok (tt, bot') /\
      session_of bot' chat =
        Some (set_hints_used s (hints_used s + Z.of_nat n)).
Proof.
  induction n as [|n IH]; intros bot s r Hinv Hs Hr.
  - exists bot. split; [reflexivity|]. simpl. now rewrite set_hints_used_same.
  - cbn [repeat]. rewrite run_cons. cbn [exec]. unfold bind at 1.
    pose proof (bot_inv_pos rs bot chat Hinv) as Hpos.
    rewrite use_hint_eq, Hs, Hr by exact Hpos.
    set (s1 := set_hints_used s (hints_used s + 1)).
    set (bot1 := set_game_data bot (dict_set (game_data bot) chat s1)).
    destruct (IH bot1 s1 r) as (bot' & Hrun & Hs').
    + apply bot_inv_store; [exact Hinv|]. apply hinted_session_inv.
      exact (bot_inv_session _ _ _ _ Hinv Hs).
    + apply session_of_store.
    + exact Hr.
    + exists bot'. split; [exact Hrun|]. rewrite Hs'. f_equal.
      unfold s1, set_hints_used. simpl. f_equal. lia.
Qed.

(** C6.  Both hint paths ([hint_command] and the ["hint"] button) do the
    same.  When [get_current_riddle] finds a riddle, a hint request sends
    its hint and leaves the session with a [hints_used] larger by exactly
    one and every other field as it was, every time it is made: after [n]
    requests in a row [hints_used] is larger by [n].  When it finds none
    the request is answered with the no-riddle notice and nothing changes;
    it finds none when the chat has no session or its session is
    [completed]. *)
Theorem hint_counts_every_request
  (rs : list Riddle) (bot : TreasureHuntBot) (chat : Z) (w : bool) :
  reachable rs bot ->
  let ctx := {| bot_instance := Some bot; waiting_for_team_name := w |} in
  button_callback chat "hint" ctx = hint_command chat ctx /\
  (forall r,
      get_current_riddle chat bot = Ok (Some r, bot) ->
      exists s bot' s',
        session_of bot chat = Some s /\
        hint_command chat ctx =
          Ok (HintGiven (hint r),
              {| bot_instance := Some bot'; waiting_for_team_name := w |}) /\
        session_of bot' chat = Some s' /\
        hints_used s' = hints_used s + 1 /\
        (team_name s' = team_name s /\
         current_riddle s' = current_riddle s /\
         start_time s' = start_time s /\
         completed_riddles s' = completed_riddles s /\
         status s' = status s /\ end_time s' = end_time s) /\
        (forall n : nat,
            exists botn sn,
              run (repeat (OpHint chat) n) bot = Ok (tt, botn) /\
              session_of botn chat = Some sn /\
              hints_used sn = hints_used s + Z.of_nat n)) /\
  (get_current_riddle chat bot = Ok (None, bot) ->
   hint_command chat ctx = Ok (NoRiddleForHint, ctx)) /\
  (session_of bot chat = None \/
   (exists s, session_of bot chat = Some s /\ status s = completed) ->
   get_current_riddle chat bot = Ok (None, bot)).
Proof.
  intros Hreach ctx. pose proof (reachable_inv _ _ Hreach) as Hinv.
  pose proof (bot_inv_pos rs bot chat Hinv) as Hpos.
  split; [apply button_hint_eq|].
  unfold ctx. rewrite hint_command_eq, use_hint_eq, get_current_riddle_eq
    by exact Hpos.
  split; [|split].
  - intros r Hcur.
    destruct (session_of bot chat) as [s|] eqn:Es; [|discriminate].
    injection Hcur as Hr. rewrite Hr.
    exists s. eexists. exists (set_hints_used s (hints_used s + 1)).
    split; [reflexivity|]. split; [reflexivity|].
    split; [apply session_of_store|].
    split; [reflexivity|]. split; [now repeat split|].
    intros n. destruct (hints_run rs chat n bot s r Hinv Es Hr)
      as (botn & Hrun & Hsn).
    exists botn. eexists. split; [exact Hrun|]. split; [exact Hsn|].
    reflexivity.
  - intros Hcur.
    destruct (session_of bot chat) as [s|] eqn:Es; [|reflexivity].
    injection Hcur as Hr. now rewrite Hr.
  - intros [Hnone | (s & Hs & Hst)].
    + now rewrite Hnone.
    + rewrite Hs. now rewrite (completed_no_riddle rs bot chat s Hinv Hs Hst).
Qed.

Lemma hint_counts_every_request_witness :
  exists bot3 s3,
    run (repeat (OpHint 7) 3) at_start = Ok (tt, bot3) /\
    session_of bot3 7 = Some s3 /\
    hints_used s3 = 3.
Proof.
  assert (Hcur : exists r, get_current_riddle 7 at_start = Ok (Some r, at_start))
    by (eexists; vm_compute; reflexivity).
  destruct Hcur as (r & Hcur).
  destruct (proj1 (proj2 (hint_counts_every_request load_riddles at_start 7 false
                            at_start_reachable)) r Hcur)
    as (s & bot' & s' & Hs & _ & _ & _ & _ & Hn).
  destruct (Hn 3%nat) as (bot3 & s3 & Hrun & Hs3 & Hh3).
  exists bot3, s3. split; [exact Hrun|]. split; [exact Hs3|].
  rewrite Hh3. vm_compute in Hs. injection Hs as <-. reflexivity.
Defined.

(** ** C3: answers do not move the session *)

Lemma lower_char_not_T (c : ascii) : lower_char c <> "T"%char.
Proof.
  destruct c as [[] [] [] [] [] [] [] []]; vm_compute; discriminate.
Qed.

(** A lower-cased text never starts with the prefix of the codes, which is
    in capitals: [handle_message] never takes its branch for a scanned
    code. *)
Lemma lower_never_scans (s : string) :
  startswith (lower s) "TREASURE_HUNT_" = false.
Proof.
  destruct s as [|c s]; [reflexivity|].
  unfold startswith. cbn [lower String.prefix].
  destruct (ascii_dec "T" (lower_char c)) as [E|E]; [|reflexivity].
  symmetry in E. now apply lower_char_not_T in E.
Qed.

Lemma handle_message_answer (bot : TreasureHuntBot) (now chat : Z)
  (message_text : string) :
  handle_message now chat message_text
    {| bot_instance := Some bot; waiting_for_team_name := false |} =
  match submit_answer chat (lower (strip message_text)) bot with
  | Ok (reply, bot') =>
      Ok (reply, {| bot_instance := Some bot'; waiting_for_team_name := false |})
  | Raise e => Raise e
  end.
Proof.
  unfold handle_message, bind, get. cbn [no_instance bot_instance
    waiting_for_team_name].
  now rewrite lower_never_scans.
Qed.




(** ** The entries of the leaderboard *)

Lemma completed_games_entries (rs : list Riddle) (its : list (Z * Session)) :
  Forall (fun it => session_inv rs (snd it)) its ->
  exists games,
    completed_games its = Ok games /\
    Forall2 entry_of
      (filter (fun it => Status_eqb (status (snd it)) completed) its) games.
Proof.
  induction 1 as [|[chat s] its Hs _ IH]; cbn [completed_games filter snd].
  - exists []. split; [reflexivity | constructor].
  - destruct IH as (games & -> & Hall). simpl in Hs.
    destruct (status s) eqn:Est; cbn [Status_eqb]; [now exists games|].
    destruct (inv_completed _ _ Hs Est) as [_ Hend].
    destruct (end_time s) as [t|] eqn:Et; [|now elim Hend].
    eexists. split; [reflexivity|]. constructor; [|exact Hall].
    exists t. split; [exact Et | reflexivity].
Qed.

Lemma Forall2_In_l {A B : Type} (R : A -> B -> Prop) (la : list A) (lb : list B)
  (a : A) :
  Forall2 R la lb -> In a la -> exists b, In b lb /\ R a b.
Proof.
  induction 1 as [|a0 b0 la lb Hab _ IH]; [intros []|].
  intros [<-|Hin].
  - exists b0. split; [now left | exact Hab].
  - destruct (IH Hin) as (b & Hb & HR). exists b. split; [now right | exact HR].
Qed.

Lemma Forall2_In_r {A B : Type} (R : A -> B -> Prop) (la : list A) (lb : list B)
  (b : B) :
  Forall2 R la lb -> In b lb -> exists a, In a la /\ R a b.
Proof.
  induction 1 as [|a0 b0 la lb Hab _ IH]; [intros []|].
  intros [<-|Hin].
  - exists a0. split; [now left | exact Hab].
  - destruct (IH Hin) as (a & Ha & HR). exists a. split; [now right | exact HR].
Qed.

Lemma get_leaderboard_eq (rs : list Riddle) (bot : TreasureHuntBot) :
  bot_inv rs bot ->
  exists games,
    get_leaderboard bot = Ok (sort_by key games, bot) /\
    Forall2 entry_of (list_completed bot) games.
Proof.
  intros Hinv.
  destruct (completed_games_entries rs (game_data bot) (inv_sessions _ _ Hinv))
    as (games & Hg & Hall).
  exists games. split; [|exact Hall].
  unfold get_leaderboard. unmonad. unfold items. now rewrite Hg.
Qed.

(** The leaderboard has entries for a chat exactly when its session is
    completed, and they are made from that session. *)
Lemma leaderboard_entry_of_chat (rs : list Riddle) (bot : TreasureHuntBot)
  (board : list Entry) (e : Entry) :
  bot_inv rs bot -> get_leaderboard bot = Ok (board, bot) ->
  (In e board <->
   exists s t, session_of bot (chat_id e) = Some s /\ status s = completed /\
               end_time s = Some t /\ e = entry (chat_id e) s t).
Proof.
  intros Hinv Hboard.
  destruct (get_leaderboard_eq rs bot Hinv) as (games & Hg & Hall).
  rewrite Hboard in Hg. injection Hg as ->.
  assert (Hperm : In e (sort_by key games) <-> In e games).
  { split; apply Permutation_in;
      [apply sort_by_perm | symmetry; apply sort_by_perm]. }
  rewrite Hperm. unfold list_completed in Hall. split.
  - intros Hin.
    destruct (Forall2_In_r _ _ _ e Hall Hin) as ([chat s] & Hit & t & Ht & He).
    apply filter_In in Hit as [Hit Hst]. simpl in *.
    exists s, t. subst e. simpl.
    split; [apply In_dict_get; [exact (inv_keys _ _ Hinv) | exact Hit]|].
    split; [now destruct (status s)|]. now split.
  - intros (s & t & Hs & Hst & Ht & He).
    apply dict_get_In in Hs.
    assert (Hit : In (chat_id e, s)
                    (filter (fun it => Status_eqb (status (snd it)) completed)
                       (game_data bot))).
    { apply filter_In. split; [exact Hs|]. simpl. now rewrite Hst. }
    destruct (Forall2_In_l _ _ _ _ Hall Hit) as (e' & He' & t' & Ht' & Hee).
    simpl in Ht', Hee. rewrite Ht in Ht'. injection Ht' as <-.
    now rewrite He, <- Hee.
Qed.

(** ** C9: [advance_riddle] on a completed session *)

(** C9.  A completed session is at or past the catalog length, and
    [advance_riddle] called for it again still returns [True]: it appends
    the position, which is outside the catalog, to [completed_riddles], adds
    one to [current_riddle] and overwrites [end_time] with the clock.  The
    duration the leaderboard shows for the chat was
    [end_time - start_time] for the old [end_time] and is [now - start_time]
    afterwards. *)
Theorem advance_after_completion_restamps
  (rs : list Riddle) (bot : TreasureHuntBot) (now chat : Z) (s : Session) :
  reachable rs bot ->
  session_of bot chat = Some s ->
  status s = completed ->
  len (riddles bot) <= current_riddle s /\
  exists bot' s',
    advance_riddle now chat bot = Ok (true, bot') /\
    session_of bot' chat = Some s' /\
    completed_riddles s' = completed_riddles s ++ [current_riddle s] /\
    current_riddle s' = current_riddle s + 1 /\
    status s' = completed /\
    end_time s' = Some now /\
    exists t board board',
      end_time s = Some t /\
      get_leaderboard bot = Ok (board, bot) /\
      get_leaderboard bot' = Ok (board', bot') /\
      (forall e, In e board -> chat_id e = chat ->
                 duration e = t - start_time s) /\
      (exists e, In e board' /\ chat_id e = chat) /\
      (forall e, In e board' -> chat_id e = chat ->
                 duration e = now - start_time s).
Proof.
  intros Hreach Hs Hst. pose proof (reachable_inv _ _ Hreach) as Hinv.
  pose proof (bot_inv_session _ _ _ _ Hinv Hs) as Hsi.
  pose proof (inv_riddles _ _ Hinv) as Hrs.
  destruct (inv_completed _ _ Hsi Hst) as [Hlen Hend].
  rewrite Hrs. split; [exact Hlen|].
  set (s' := advanced rs now s).
  set (bot' := set_game_data bot (dict_set (game_data bot) chat s')).
  assert (Hge : (current_riddle s + 1 >=? len rs) = true)
    by (rewrite Z.geb_leb; apply Z.leb_le; lia).
  assert (Hinv' : bot_inv rs bot')
    by (apply bot_inv_store; [exact Hinv | now apply advanced_session_inv]).
  assert (Hs' : session_of bot' chat = Some s') by apply session_of_store.
  exists bot', s'.
  split; [rewrite advance_riddle_eq, Hs, Hrs; reflexivity|].
  split; [exact Hs'|].
  unfold s' at 1 2 3 4. cbn [advanced completed_riddles current_riddle status
    end_time]. rewrite Hge.
  repeat (split; [reflexivity|]).
  destruct (end_time s) as [t|] eqn:Et; [|now elim Hend].
  destruct (get_leaderboard_eq rs bot Hinv) as (games & Hb & _).
  destruct (get_leaderboard_eq rs bot' Hinv') as (games' & Hb' & _).
  exists t, (sort_by key games), (sort_by key games').
  split; [reflexivity|]. split; [exact Hb|]. split; [exact Hb'|].
  split; [|split].
  - intros e Hin <-.
    apply (leaderboard_entry_of_chat rs bot _ e Hinv Hb) in Hin
      as (s0 & t0 & Hs0 & _ & Ht0 & ->).
    rewrite Hs in Hs0. injection Hs0 as <-.
    rewrite Et in Ht0. now injection Ht0 as <-.
  - exists (entry chat s' now). split; [|reflexivity].
    apply (leaderboard_entry_of_chat rs bot' _ _ Hinv' Hb').
    exists s', now. cbn [entry chat_id]. split; [exact Hs'|].
    unfold s'. cbn [advanced status end_time]. rewrite Hge. now repeat split.
  - intros e Hin <-.
    apply (leaderboard_entry_of_chat rs bot' _ e Hinv' Hb') in Hin
      as (s0 & t0 & Hs0 & _ & Ht0 & ->).
    rewrite Hs' in Hs0. injection Hs0 as <-.
    unfold s' in Ht0 |- *. cbn [advanced end_time] in Ht0. rewrite Hge in Ht0.
    now injection Ht0 as <-.
Qed.

Lemma advance_after_completion_restamps_witness :
  exists bot' s',
    advance_riddle 1000 7 at_end = Ok (true, bot') /\
    session_of bot' 7 = Some s' /\
    current_riddle s' = 5 /\ end_time s' = Some 1000.
Proof.
  assert (Hs : session_of at_end 7 = Some session_at_end)
    by (vm_compute; reflexivity).
  destruct (proj2 (advance_after_completion_restamps load_riddles at_end 1000 7
                     session_at_end at_end_reachable Hs eq_refl))
    as (bot' & s' & Hadv & Hs' & _ & Hcur & _ & Hend & _).
  exists bot', s'. split; [exact Hadv|]. split; [exact Hs'|].
  split; [exact Hcur | exact Hend].
Defined.

(** ** C8: the leaderboard *)

Lemma StronglySorted_weaken {A : Type} (R R' : A -> A -> Prop) (l : list A) :
  (forall a b, R a b -> R' a b) -> StronglySorted R l -> StronglySorted R' l.
Proof.
  intros Himp. induction 1 as [|x l _ IH Hall]; constructor; [exact IH|].
  rewrite Forall_forall in *. auto.
Qed.

Lemma key_le_ranks_before (a b : Entry) : key_le key a b <-> ranks_before a b.
Proof. unfold key_le, ranks_before. now rewrite tuple_le_spec. Qed.

(** C8.  In every state the engine reaches, [get_leaderboard] returns, and
    leaves the store as it was.  Its list has one entry for each session
    whose status is [completed] and no other, the entry with
    [duration = end_time - start_time] and the session's [hints_used].  The
    list is in ascending order of duration and, for equal durations, of
    [hints_used]: an entry with a shorter duration is ahead of one with a
    longer, whatever their hints.  Entries equal on both keys are in the
    order of their sessions in the store. *)
Theorem leaderboard_ranks_completed_by_time
  (rs : list Riddle) (bot : TreasureHuntBot) :
  reachable rs bot ->
  exists games board,
    get_leaderboard bot = Ok (board, bot) /\
    Forall2 entry_of (list_completed bot) games /\
    Permutation board games /\
    StronglySorted ranks_before board /\
    (forall i j a b,
        nth_error board i = Some a -> nth_error board j = Some b ->
        duration a < duration b -> (i < j)%nat) /\
    (forall kk,
        filter (fun e => tuple_eqb (key e) kk) board =
        filter (fun e => tuple_eqb (key e) kk) games).
Proof.
  intros Hreach. pose proof (reachable_inv _ _ Hreach) as Hinv.
  destruct (get_leaderboard_eq rs bot Hinv) as (games & Hb & Hall).
  exists games, (sort_by key games).
  split; [exact Hb|]. split; [exact Hall|].
  split; [apply sort_by_perm|].
  pose proof (sort_by_sorted key games) as Hsorted.
  split; [|split].
  - apply (StronglySorted_weaken (key_le key)); [|exact Hsorted].
    intros a b. apply key_le_ranks_before.
  - intros i j a b Hi Hj Hlt.
    destruct (Nat.lt_trichotomy i j) as [H|[H|H]]; [exact H| |].
    + subst j. rewrite Hi in Hj. injection Hj as <-. lia.
    + pose proof (sorted_nth_le key _ Hsorted j i b a Hj Hi H) as Hle.
      apply key_le_ranks_before in Hle. unfold ranks_before in Hle. lia.
  - intros kk. apply sort_by_stable.
Qed.

Lemma leaderboard_ranks_completed_by_time_witness :
  exists board,
    get_leaderboard two_finished = Ok (board, two_finished) /\
    StronglySorted ranks_before board.
Proof.
  destruct (leaderboard_ranks_completed_by_time load_riddles two_finished
              two_finished_reachable)
    as (games & board & Hb & _ & _ & Hsorted & _).
  exists board. split; [exact Hb | exact Hsorted].
Defined.

(** ** C4: a riddle without an answer *)

Lemma submit_answer_without_answer (rs : list Riddle) (bot : TreasureHuntBot)
  (chat : Z) (text : string) (r : Riddle) :
  reachable rs bot ->
  get_current_riddle chat bot = Ok (Some r, bot) ->
  (exists s, session_of bot chat = Some s /\ status s = active) ->
  answer r = None ->
  submit_answer chat text bot =
  Ok (if str_eq text "" then AnswerCorrect (map_path r) else AnswerWrong, bot).
Proof.
  intros Hreach Hcur (s & Hs & Hst) Hans.
  pose proof (bot_inv_pos rs bot chat (reachable_inv _ _ Hreach)) as Hpos.
  rewrite get_current_riddle_eq in Hcur by exact Hpos.
  rewrite submit_answer_eq by exact Hpos.
  rewrite Hs in Hcur |- *. injection Hcur as ->. rewrite Hst.
  unfold correct_answer. now rewrite Hans.
Qed.

(** C4, as the code has it.  On a catalog whose first riddle has no
    ["answer"], [main] is started with a token, the new-game button is
    pressed and the team name sent: the session is at that riddle.  A
    message of one space is stripped to the empty text, which is what
    [current_riddle.get("answer", "")] gives for a riddle without an
    answer, and [handle_message] takes the branch of the correct
    answer. *)
Theorem blank_text_matches_riddle_without_answer :
  exists ctx0 ctx1 ctx bot r,
    main calm code_only_first token_only = Ok (Polling ctx0) /\
    dispatch (Button 7 "new_game") ctx0 = Ok (tt, ctx1) /\
    dispatch (Message 0 7 "foo") ctx1 = Ok (tt, ctx) /\
    served calm code_only_first ctx /\
    bot_instance ctx = Some bot /\
    get_current_riddle 7 bot = Ok (Some r, bot) /\
    answer r = None /\
    handle_message 30 7 " " ctx = Ok (AnswerCorrect None, ctx).
Proof.
  pose (bot := set_game_data (init code_only_first)
                 (dict_set [] 7 (new_session 0 "foo"))).
  pose (ctx0 := {| bot_instance := Some (init code_only_first);
                   waiting_for_team_name := false |}).
  pose (ctx1 := {| bot_instance := Some (init code_only_first);
                   waiting_for_team_name := true |}).
  pose (ctx := {| bot_instance := Some bot; waiting_for_team_name := false |}).
  assert (H0 : main calm code_only_first token_only = Ok (Polling ctx0))
    by (vm_compute; reflexivity).
  assert (H1 : dispatch (Button 7 "new_game") ctx0 = Ok (tt, ctx1))
    by (vm_compute; reflexivity).
  assert (H2 : dispatch (Message 0 7 "foo") ctx1 = Ok (tt, ctx))
    by (vm_compute; reflexivity).
  exists ctx0, ctx1, ctx, bot. eexists.
  split; [exact H0|]. split; [exact H1|]. split; [exact H2|].
  split.
  { apply (served_update _ _ ctx1 (Message 0 7 "foo")); [|exact H2].
    apply (served_update _ _ ctx0 (Button 7 "new_game")); [|exact H1].
    exact (served_main _ _ token_only ctx0 H0). }
  split; [reflexivity|].
  split; [vm_compute; reflexivity|].
  split; vm_compute; reflexivity.
Qed.

(** ** C7: duplicates in the catalog *)

Section Distinct.

Context {A : Type} (eqb : A -> A -> bool).
Hypothesis eqb_eq : forall a b, eqb a b = true <-> a = b.

Lemma existsb_eqb_In (a : A) (l : list A) :
  existsb (eqb a) l = true <-> In a l.
Proof.
  rewrite existsb_exists. split.
  - intros (b & Hb & Heq). apply eqb_eq in Heq. now subst.
  - intros Hin. exists a. split; [exact Hin | now apply eqb_eq].
Qed.

Lemma distinct_length (l : list A) :
  (List.length (distinct eqb l) <= List.length l)%nat.
Proof.
  induction l as [|a l IH]; simpl; [lia|].
  destruct (existsb (eqb a) l); simpl; lia.
Qed.

(** [len(l) != len(set(l))] says that some element is there twice. *)
Lemma has_duplicates_false (l : list A) :
  has_duplicates eqb l = false <-> NoDup l.
Proof.
  unfold has_duplicates, len. rewrite negb_false_iff, Z.eqb_eq.
  induction l as [|a l IH]; cbn [distinct List.length].
  - split; [constructor | reflexivity].
  - pose proof (distinct_length l) as Hle.
    destruct (existsb (eqb a) l) eqn:E.
    + apply existsb_eqb_In in E. split; [lia|].
      intros Hnd. inversion Hnd; subst. contradiction.
    + assert (Hnin : ~ In a l).
      { rewrite <- existsb_eqb_In. congruence. }
      cbn [List.length]. split.
      * intros Heq. constructor; [exact Hnin|]. apply IH. lia.
      * intros Hnd. inversion Hnd; subst.
        assert (Z.of_nat (List.length l) = Z.of_nat (List.length (distinct eqb l)))
          by now apply IH.
        lia.
Qed.

End Distinct.

Lemma catalog_has_duplicates_false (rs : list Riddle) :
  catalog_has_duplicates rs = false <->
  NoDup (map id rs) /\ NoDup (map qr_code rs).
Proof.
  unfold catalog_has_duplicates. rewrite orb_false_iff.
  rewrite (has_duplicates_false Z.eqb Z.eqb_eq).
  now rewrite (has_duplicates_false String.eqb String.eqb_eq).
Qed.

Lemma generate_qr_codes_from_eq (w : World) (rs : list Riddle) :
  forall qr_codes,
    (codes_fit w rs = true ->
     exists d, generate_qr_codes_from w rs qr_codes = Ok d) /\
    (codes_fit w rs = false ->
     generate_qr_codes_from w rs qr_codes = Raise ValueError).
Proof.
  induction rs as [|r rs IH]; intros qr_codes; cbn [codes_fit forallb
    generate_qr_codes_from].
  - split; [now eexists | discriminate].
  - unfold make_qr. destruct (qr_fits w ERROR_CORRECT_M (qr_code r)); cbn [andb].
    + apply IH.
    + split; [discriminate | reflexivity].
Qed.

(** The constructor raises exactly when a code of the catalog fits no QR
    symbol, and with [ValueError]. *)
Lemma TreasureHuntBot_init_eq (w : World) (rs : list Riddle) :
  TreasureHuntBot_init w rs =
  if codes_fit w rs then Ok (init rs) else Raise ValueError.
Proof.
  unfold TreasureHuntBot_init, generate_qr_codes.
  destruct (generate_qr_codes_from_eq w rs []) as [Hok Hraise].
  destruct (codes_fit w rs).
  - now destruct (Hok eq_refl) as (d & ->).
  - now rewrite (Hraise eq_refl).
Qed.

(** C7, as stated, fails: started with a token and without [--validate],
    [main] reaches [run_polling] with a catalog in which two riddles share
    their id and their code. *)
Lemma duplicates_do_not_stop_startup :
  catalog_has_duplicates twice_the_same = true /\
  main calm twice_the_same token_only =
    Ok (Polling {| bot_instance := Some (init twice_the_same);
                   waiting_for_team_name := false |}) /\
  engine_started (main calm twice_the_same token_only) = true.
Proof. split; [reflexivity|]. split; reflexivity. Qed.

(** C7, amended.  No duplicate stops the start.  What does is a code that
    fits no QR symbol: the constructor, which [main] runs first whatever
    the arguments, then raises [ValueError].  When every code fits, the
    catalog is checked for duplicates only in a run with [--validate] (and
    neither [--list-riddles] nor [--generate-qr]): there, a catalog with a
    duplicate id or a duplicate code is reported with the message for the
    one or the other and never as passed, a catalog without is reported as
    passed, and in either case the run ends without starting the engine.
    A run without [--validate] makes no such check: given a token, it
    starts the engine on the catalog as [load_riddles] returned it. *)
Theorem duplicates_checked_only_by_validate
  (w : World) (rs : list Riddle) (args : Args) :
  (codes_fit w rs = false -> main w rs args = Raise ValueError) /\
  (codes_fit w rs = true ->
   list_riddles args = false ->
   generate_qr args = false ->
   (validate args = true ->
    engine_started (main w rs args) = false /\
    (catalog_has_duplicates rs = true ->
     main w rs args = Ok DuplicateIds \/
     main w rs args = Ok DuplicateQrCodes) /\
    (catalog_has_duplicates rs = false ->
     main w rs args = Ok ValidationPassed)) /\
   (validate args = false -> no_token args = false ->
    main w rs args =
      Ok (Polling {| bot_instance := Some (init rs);
                     waiting_for_team_name := false |}))).
Proof.
  unfold main, catalog_has_duplicates. rewrite TreasureHuntBot_init_eq.
  split; [now intros ->|].
  intros -> Hl Hg. rewrite Hl, Hg. cbn [init riddles]. split.
  - intros ->.
    destruct (has_duplicates Z.eqb (map id rs));
      destruct (has_duplicates String.eqb (map qr_code rs)); cbn;
      repeat split; try discriminate; auto.
  - intros -> ->. reflexivity.
Qed.

Lemma duplicates_checked_only_by_validate_witness :
  main calm twice_the_same validate_only = Ok DuplicateIds /\
  engine_started (main calm twice_the_same token_only) = true.
Proof.
  destruct (duplicates_checked_only_by_validate calm twice_the_same
              validate_only) as [_ Hv].
  destruct (duplicates_checked_only_by_validate calm twice_the_same
              token_only) as [_ Hn].
  split.
  - destruct (proj1 (Hv eq_refl eq_refl eq_refl) eq_refl) as (_ & Hdup & _).
    destruct (Hdup eq_refl) as [H|H]; [exact H | discriminate H].
  - rewrite (proj2 (Hn eq_refl eq_refl eq_refl) eq_refl eq_refl). reflexivity.
Defined.

(* ================================================================== *)
(** * Further properties of the engine *)

(** ** [create_game_session] *)

(** X1.  [create_game_session] always succeeds.  The chat's session is
    then the new one (position 0, nothing cleared, no hints, [active], no
    [end_time], started at the clock's reading), whatever session the chat
    had before; the sessions of the other chats and the catalog are as they
    were.  A chat that had a session keeps its place in the store, a new
    chat goes last. *)
Theorem create_game_session_overwrites
  (bot : TreasureHuntBot) (now chat : Z) (name : string) :
  exists s bot',
    create_game_session now chat name bot = Ok (s, bot') /\
    session_of bot' chat = Some s /\
    (team_name s = name /\ current_riddle s = 0 /\ start_time s = now /\
     completed_riddles s = [] /\ hints_used s = 0 /\ status s = active /\
     end_time s = None) /\
    (forall c, c <> chat -> session_of bot' c = session_of bot c) /\
    riddles bot' = riddles bot /\
    chats bot' = match session_of bot chat with
                 | Some _ => chats bot
                 | None => chats bot ++ [chat]
                 end.
Proof.
  rewrite create_game_session_eq. eexists. eexists.
  split; [reflexivity|]. split; [apply session_of_store|].
  split; [now repeat split|].
  split; [intros c Hc; now apply session_of_store_other|].
  split; [reflexivity|].
  unfold chats, session_of. cbn [game_data set_game_data].
  apply dict_set_keys.
Qed.

Lemma create_game_session_overwrites_witness :
  exists s bot',
    create_game_session 50 8 "bar" at_park = Ok (s, bot') /\
    session_of bot' 7 = session_of at_park 7 /\
    chats bot' = [7; 8].
Proof.
  destruct (create_game_session_overwrites at_park 50 8 "bar")
    as (s & bot' & Hc & _ & _ & Hother & _ & Hchats).
  exists s, bot'. split; [exact Hc|]. split.
  - apply Hother. discriminate.
  - rewrite Hchats. vm_compute. reflexivity.
Defined.

(** ** [advance_riddle] *)

(** X2.  [advance_riddle] never raises, in any state.  It returns [True]
    exactly when the chat has a session; without one it changes nothing.
    With one it leaves the catalog, the order of the store, the sessions of
    the other chats and the session's own [team_name], [start_time] and
    [hints_used] as they were. *)
Theorem advance_riddle_frame (bot : TreasureHuntBot) (now chat : Z) :
  exists b bot',
    advance_riddle now chat bot = Ok (b, bot') /\
    (b = true <-> session_of bot chat <> None) /\
    (session_of bot chat = None -> bot' = bot) /\
    riddles bot' = riddles bot /\
    chats bot' = chats bot /\
    (forall c, c <> chat -> session_of bot' c = session_of bot c) /\
    (forall s, session_of bot chat = Some s ->
               exists s', session_of bot' chat = Some s' /\
                          team_name s' = team_name s /\
                          start_time s' = start_time s /\
                          hints_used s' = hints_used s).
Proof.
  rewrite advance_riddle_eq.
  destruct (session_of bot chat) as [s|] eqn:Es.
  - eexists. eexists. split; [reflexivity|].
    split; [split; [discriminate | reflexivity]|].
    split; [discriminate|]. split; [reflexivity|].
    split.
    { unfold chats. cbn [game_data set_game_data]. rewrite dict_set_keys.
      unfold session_of in Es. now rewrite Es. }
    split; [intros c Hc; now apply session_of_store_other|].
    intros s0 [= <-]. eexists. split; [apply session_of_store|].
    now repeat split.
  - exists false, bot. split; [reflexivity|].
    split; [split; [discriminate | congruence]|].
    split; [reflexivity|]. split; [reflexivity|]. split; [reflexivity|].
    split; [reflexivity|]. discriminate.
Qed.

Lemma advance_riddle_frame_witness :
  advance_riddle 50 8 at_park = Ok (false, at_park).
Proof.
  destruct (advance_riddle_frame at_park 50 8)
    as (b & bot' & Ha & Hb & Hnone & _).
  assert (Hs : session_of at_park 8 = None) by (vm_compute; reflexivity).
  rewrite Ha. rewrite (Hnone Hs).
  destruct b; [|reflexivity].
  exfalso. now apply (proj1 Hb eq_refl).
Defined.

(** ** Runs of the engine *)

Lemma run_inv (rs : list Riddle) (ops : list Op) :
  forall bot, bot_inv rs bot ->
              exists bot', run ops bot = Ok (tt, bot') /\ bot_inv rs bot'.
Proof.
  induction ops as [|op ops IH]; intros bot Hinv.
  - now exists bot.
  - destruct (exec_inv rs op bot Hinv) as (bot1 & Hex & Hinv1).
    destruct (IH bot1 Hinv1) as (bot' & Hrun & Hinv').
    exists bot'. split; [|exact Hinv']. now rewrite run_cons, Hex.
Qed.

Lemma engine_run_from (rs : list Riddle) (ops : list Op)
  (bot : TreasureHuntBot) :
  reachable rs bot ->
  exists bot', run ops bot = Ok (tt, bot') /\ reachable rs bot'.
Proof.
  intros Hreach.
  destruct (run_inv rs ops bot (reachable_inv _ _ Hreach)) as (bot' & Hrun & _).
  exists bot'. split; [exact Hrun|].
  exact (reachable_run rs ops bot bot' Hreach Hrun).
Qed.

(** X3.  No sequence of engine operations on a new bot raises, whatever the
    catalog, the chats, the texts and the clock readings: the catalog is
    never indexed outside its bounds, no [game_data[chat_id]] and no
    [session["end_time"]] is read where the key is absent.  In the state
    reached the catalog is the one loaded, and every session has a
    non-negative position and count of hints, and an [end_time] if it is
    [completed]. *)
Theorem engine_never_raises (rs : list Riddle) (ops : list Op) :
  exists bot,
    run ops (init rs) = Ok (tt, bot) /\
    reachable rs bot /\
    riddles bot = rs /\
    NoDup (chats bot) /\
    forall chat s,
      session_of bot chat = Some s ->
      0 <= current_riddle s /\ 0 <= hints_used s /\
      (status s = completed -> end_time s <> None).
Proof.
  destruct (run_inv rs ops (init rs) (bot_inv_init rs)) as (bot & Hrun & Hinv).
  exists bot. split; [exact Hrun|].
  split; [exact (reachable_from_init rs ops bot Hrun)|].
  split; [exact (inv_riddles _ _ Hinv)|].
  split; [exact (inv_keys _ _ Hinv)|].
  intros chat s Hs. pose proof (bot_inv_session _ _ _ _ Hinv Hs) as Hsi.
  split; [exact (inv_pos _ _ Hsi)|]. split; [exact (inv_hints _ _ Hsi)|].
  intros Hst. exact (proj2 (inv_completed _ _ Hsi Hst)).
Qed.

Lemma engine_never_raises_witness :
  exists bot s,
    run to_end (init load_riddles) = Ok (tt, bot) /\
    session_of bot 7 = Some s /\ 0 <= current_riddle s /\
    end_time s <> None.
Proof.
  destruct (engine_never_raises load_riddles to_end)
    as (bot & Hrun & _ & _ & _ & Hall).
  assert (Hs : session_of bot 7 = Some session_at_end).
  { vm_compute in Hrun. injection Hrun as <-. vm_compute. reflexivity. }
  destruct (Hall 7 session_at_end Hs) as (Hpos & _ & Hend).
  exists bot, session_at_end. split; [exact Hrun|]. split; [exact Hs|].
  split; [exact Hpos|]. apply Hend. reflexivity.
Defined.

Lemma advanced_status_matches (rs : list Riddle) (now : Z) (s : Session) :
  0 <= current_riddle s -> status_matches rs s ->
  status_matches rs (advanced rs now s).
Proof.
  intros Hpos [Hst Hend]. unfold status_matches. cbn [advanced status
    current_riddle end_time]. rewrite Z.geb_leb.
  destruct (len rs <=? current_riddle s + 1) eqn:E.
  - apply Z.leb_le in E. split; split; try discriminate; auto.
    split; [lia | exact E].
  - apply Z.leb_gt in E. split; [|exact Hend].
    split; [|lia]. intros H. apply Hst in H. lia.
Qed.

(** X4.  In every state the engine reaches, a session is [completed]
    exactly when it has been advanced at least once and its position is at
    the catalog length or past it, and it has an [end_time] exactly when it
    is [completed].  (With an empty catalog a new session is [active] though
    its position, 0, is at the catalog length.) *)
Theorem status_tells_position
  (rs : list Riddle) (bot : TreasureHuntBot) (chat : Z) (s : Session) :
  reachable rs bot ->
  session_of bot chat = Some s ->
  (status s = completed <->
   0 < current_riddle s /\ len rs <= current_riddle s) /\
  (end_time s = None <-> status s = active).
Proof.
  intros Hreach. revert chat s.
  induction Hreach as [|bot op bot' Hreach IH Hex]; intros chat s Hs.
  - discriminate.
  - pose proof (reachable_inv _ _ Hreach) as Hinv.
    destruct (exec_cases rs op bot bot' chat Hinv Hex)
      as [Hsame | [(now & name & _ & Hnew) | [(now & s0 & _ & Hs0 & Hadv)
                                             | (s0 & r & _ & Hs0 & _ & Hh)]]].
    + rewrite Hsame in Hs. now apply (IH chat).
    + rewrite Hs in Hnew. injection Hnew as ->. cbn.
      split; split; try discriminate; try reflexivity. lia.
    + rewrite Hs in Hadv. injection Hadv as ->.
      apply advanced_status_matches; [|now apply (IH chat)].
      exact (bot_inv_pos rs bot chat Hinv s0 Hs0).
    + rewrite Hs in Hh. injection Hh as ->. exact (IH chat s0 Hs0).
Qed.

Lemma status_tells_position_witness :
  status session_at_end = completed /\
  0 < current_riddle session_at_end /\
  len load_riddles <= current_riddle session_at_end.
Proof.
  assert (Hs : session_of at_end 7 = Some session_at_end)
    by (vm_compute; reflexivity).
  destruct (status_tells_position load_riddles at_end 7 session_at_end
              at_end_reachable Hs) as [[Hto _] _].
  split; [reflexivity|]. apply Hto. reflexivity.
Defined.

Lemma step_grows (rs : list Riddle) (op : Op) (bot bot' : TreasureHuntBot)
  (chat : Z) (s : Session) :
  bot_inv rs bot -> session_of bot chat = Some s ->
  exec op bot = Ok (tt, bot') ->
  exists s',
    session_of bot' chat = Some s' /\
    (creates chat op = false ->
     team_name s' = team_name s /\ start_time s' = start_time s /\
     hints_used s <= hints_used s' /\ current_riddle s <= current_riddle s' /\
     exists more, completed_riddles s' = completed_riddles s ++ more).
Proof.
  intros Hinv Hs Hex.
  destruct (exec_cases rs op bot bot' chat Hinv Hex)
    as [Hsame | [(now & name & -> & Hnew) | [(now & s0 & _ & Hs0 & Hadv)
                                            | (s0 & r & _ & Hs0 & _ & Hh)]]].
  - exists s. split; [congruence|]. intros _.
    repeat split; try lia. exists []. now rewrite app_nil_r.
  - eexists. split; [exact Hnew|]. cbn [creates]. rewrite Z.eqb_refl.
    discriminate.
  - rewrite Hs in Hs0. injection Hs0 as <-.
    eexists. split; [exact Hadv|]. intros _. cbn.
    repeat split; try lia. now eexists.
  - rewrite Hs in Hs0. injection Hs0 as <-.
    eexists. split; [exact Hh|]. intros _. cbn.
    repeat split; try lia. exists []. now rewrite app_nil_r.
Qed.

(** X5.  The engine never removes a session.  And as long as no session is
    created anew for the chat, its session keeps its [team_name] and its
    [start_time], [hints_used] and [current_riddle] never go down, and
    [completed_riddles] only grows at its end. *)
Theorem session_only_grows
  (rs : list Riddle) (ops : list Op) :
  forall (bot : TreasureHuntBot) (chat : Z) (s : Session),
    reachable rs bot ->
    session_of bot chat = Some s ->
    exists bot' s',
      run ops bot = Ok (tt, bot') /\
      session_of bot' chat = Some s' /\
      (forallb (fun op => negb (creates chat op)) ops = true ->
       team_name s' = team_name s /\ start_time s' = start_time s /\
       hints_used s <= hints_used s' /\
       current_riddle s <= current_riddle s' /\
       exists more, completed_riddles s' = completed_riddles s ++ more).
Proof.
  induction ops as [|op ops IH]; intros bot chat s Hreach Hs.
  - exists bot, s. split; [reflexivity|]. split; [exact Hs|]. intros _.
    repeat split; try lia. exists []. now rewrite app_nil_r.
  - pose proof (reachable_inv _ _ Hreach) as Hinv.
    destruct (exec_inv rs op bot Hinv) as (bot1 & Hex & _).
    destruct (step_grows rs op bot bot1 chat s Hinv Hs Hex) as (s1 & Hs1 & H1).
    destruct (IH bot1 chat s1 (reach_step rs bot op bot1 Hreach Hex) Hs1)
      as (bot' & s' & Hrun & Hs' & H').
    exists bot', s'. split; [now rewrite run_cons, Hex|].
    split; [exact Hs'|]. cbn [forallb]. intros Hall.
    apply andb_true_iff in Hall as [Hop Hall]. apply negb_true_iff in Hop.
    destruct (H1 Hop) as (Ht & Hst & Hh & Hc & more1 & Hm1).
    destruct (H' Hall) as (Ht' & Hst' & Hh' & Hc' & more & Hm).
    repeat split; try congruence; try lia.
    exists (more1 ++ more). now rewrite Hm, Hm1, app_assoc.
Qed.

Lemma session_only_grows_witness :
  exists bot' s',
    run [OpHint 7; OpAnswer 7 "park"; OpAdvance 30 7; OpCreate 31 8 "bar"]
      at_park = Ok (tt, bot') /\
    session_of bot' 7 = Some s' /\ team_name s' = "foo" /\ start_time s' = 0.
Proof.
  assert (Hs : exists s, session_of at_park 7 = Some s /\ team_name s = "foo" /\
                         start_time s = 0)
    by (eexists; vm_compute; repeat split; reflexivity).
  destruct Hs as (s & Hs & Hname & Hstart).
  destruct (session_only_grows load_riddles
              [OpHint 7; OpAnswer 7 "park"; OpAdvance 30 7; OpCreate 31 8 "bar"]
              at_park 7 s at_park_reachable Hs)
    as (bot' & s' & Hrun & Hs' & Hgrow).
  destruct (Hgrow eq_refl) as (Ht & Hst & _).
  exists bot', s'. split; [exact Hrun|]. split; [exact Hs'|].
  split; congruence.
Defined.

(** ** The current riddle *)

Lemma riddle_at_nth (bot : TreasureHuntBot) (k : nat) :
  riddle_at bot (Z.of_nat k) = nth_error (riddles bot) k.
Proof.
  unfold riddle_at.
  replace (0 <=? Z.of_nat k) with true by (symmetry; apply Z.leb_le; lia).
  rewrite Nat2Z.id. cbn [andb].
  destruct (Z.of_nat k <? len (riddles bot)) eqn:E; [reflexivity|].
  apply Z.ltb_ge in E. symmetry. apply nth_error_None. unfold len in E. lia.
Qed.

(** X6.  The riddles are played in the order of the catalog list, whatever
    their ["id"]s: after [create_game_session] and [k] calls of
    [advance_riddle] the current riddle is the entry at index [k] of the
    list, and there is none once [k] is the length of the list or more.
    The code of that entry is the one [validate_qr_code] accepts. *)
Theorem current_riddle_is_by_position
  (bot : TreasureHuntBot) (t0 chat : Z) (name : string) (times : list Z) :
  let play := create_game_session t0 chat name ;;; advance_times times chat in
  let k := List.length times in
  exists bot',
    play bot = Ok (tt, bot') /\
    get_current_riddle chat bot' = Ok (nth_error (riddles bot) k, bot') /\
    (forall r, nth_error (riddles bot) k = Some r ->
               validate_qr_code chat (qr_code r) bot' = Ok (true, bot')).
Proof.
  intros play k.
  set (bot1 := set_game_data bot
                 (dict_set (game_data bot) chat (new_session t0 name))).
  destruct (advance_times_session chat times bot1 (new_session t0 name))
    as (bot' & s' & Hrun & Hrs & Hs' & Hcur & _).
  { apply session_of_store. }
  cbn [new_session current_riddle] in Hcur. unfold len in Hcur. fold k in Hcur.
  assert (Hpos : forall s, session_of bot' chat = Some s -> 0 <= current_riddle s).
  { intros s Hs. rewrite Hs' in Hs. injection Hs as <-. lia. }
  assert (Hat : riddle_at bot' (current_riddle s') = nth_error (riddles bot) k).
  { rewrite Hcur, Z.add_0_l, riddle_at_nth, Hrs. reflexivity. }
  exists bot'. split.
  { unfold play, bind. rewrite create_game_session_eq. exact Hrun. }
  split.
  - rewrite get_current_riddle_eq by exact Hpos. now rewrite Hs', Hat.
  - intros r Hr. rewrite validate_qr_code_eq by exact Hpos.
    rewrite Hs', Hat, Hr. unfold str_eq. now rewrite String.eqb_refl.
Qed.

Lemma current_riddle_is_by_position_witness :
  exists bot',
    (create_game_session 0 7 "foo" ;;; advance_times [10; 20] 7)
      (init load_riddles) = Ok (tt, bot') /\
    validate_qr_code 7 "TREASURE_HUNT_LOC_3_CAFE" bot' = Ok (true, bot').
Proof.
  destruct (current_riddle_is_by_position (init load_riddles) 0 7 "foo" [10; 20])
    as (bot' & Hplay & _ & Hval).
  exists bot'. split; [exact Hplay|].
  exact (Hval _ eq_refl).
Defined.

Lemma nth_error_qr_code_inj (rs : list Riddle) (i j : nat) (r r' : Riddle) :
  NoDup (map qr_code rs) ->
  nth_error rs i = Some r -> nth_error rs j = Some r' ->
  qr_code r = qr_code r' -> i = j.
Proof.
  intros Hnd Hi Hj Heq.
  apply (proj1 (NoDup_nth_error (map qr_code rs)) Hnd).
  - rewrite length_map. apply nth_error_Some. congruence.
  - rewrite !nth_error_map, Hi, Hj. cbn. now rewrite Heq.
Qed.

(** X7.  When the codes of the catalog are all different, a stop's code is
    accepted at that stop only: in every state the engine reaches,
    [validate_qr_code] returns [True] for the code of the riddle at index
    [j] exactly when the session is at position [j].  The code of a stop
    already cleared or of one further on is refused. *)
Theorem only_current_code_validates
  (rs : list Riddle) (bot : TreasureHuntBot) (chat : Z) (s : Session)
  (j : nat) (r : Riddle) :
  reachable rs bot ->
  NoDup (map qr_code rs) ->
  session_of bot chat = Some s ->
  nth_error rs j = Some r ->
  (validate_qr_code chat (qr_code r) bot = Ok (true, bot) <->
   current_riddle s = Z.of_nat j).
Proof.
  intros Hreach Hnd Hs Hr. pose proof (reachable_inv _ _ Hreach) as Hinv.
  pose proof (bot_inv_pos rs bot chat Hinv) as Hpos.
  pose proof (inv_riddles _ _ Hinv) as Hrs.
  rewrite validate_qr_code_eq by exact Hpos. rewrite Hs. split.
  - destruct (riddle_at bot (current_riddle s)) as [r'|] eqn:Er;
      [|discriminate].
    intros [= Heq]. apply String.eqb_eq in Heq.
    apply riddle_at_Some in Er as [Hrange Hnth]. rewrite Hrs in Hnth.
    pose proof (nth_error_qr_code_inj rs _ _ _ _ Hnd Hr Hnth Heq). lia.
  - intros ->. rewrite riddle_at_nth, Hrs, Hr.
    unfold str_eq. now rewrite String.eqb_refl.
Qed.

Lemma only_current_code_validates_witness :
  validate_qr_code 7 "TREASURE_HUNT_LOC_1_PARK" at_park = Ok (true, at_park) /\
  validate_qr_code 7 "TREASURE_HUNT_LOC_3_CAFE" at_park <> Ok (true, at_park).
Proof.
  assert (Hnd : NoDup (map qr_code load_riddles)).
  { apply (has_duplicates_false String.eqb String.eqb_eq). vm_compute.
    reflexivity. }
  assert (Hs : exists s, session_of at_park 7 = Some s /\ current_riddle s = 1)
    by (eexists; vm_compute; split; reflexivity).
  destruct Hs as (s & Hs & Hcur).
  split.
  - apply (proj2 (only_current_code_validates load_riddles at_park 7 s 1 _
                    at_park_reachable Hnd Hs eq_refl)).
    exact Hcur.
  - intros H.
    apply (proj1 (only_current_code_validates load_riddles at_park 7 s 2 _
                    at_park_reachable Hnd Hs eq_refl)) in H.
    rewrite Hcur in H. discriminate H.
Defined.

(** ** [get_leaderboard] in any store *)

Lemma completed_games_raises (its : list (Z * Session)) :
  (exists chat s, In (chat, s) its /\ status s = completed /\
                  end_time s = None) ->
  completed_games its = Raise KeyError.
Proof.
  induction its as [|[c s0] its IH]; intros (chat & s & Hin & Hst & Hend).
  - destruct Hin.
  - cbn [completed_games]. destruct Hin as [[= -> ->]|Hin].
    + now rewrite Hst, Hend.
    + rewrite IH by (now exists chat, s).
      destruct (Status_eqb (status s0) completed); [|reflexivity].
      now destruct (end_time s0).
Qed.

Lemma completed_games_returns (its : list (Z * Session)) :
  (forall chat s, In (chat, s) its -> status s = completed ->
                  end_time s <> None) ->
  exists games, completed_games its = Ok games.
Proof.
  induction its as [|[c s0] its IH]; intros Hall.
  - now exists [].
  - cbn [completed_games].
    destruct IH as (games & ->).
    { intros chat s Hin. apply (Hall chat s). now right. }
    destruct (status s0) eqn:Est; cbn [Status_eqb]; [now exists games|].
    destruct (end_time s0) as [t|] eqn:Et.
    + eexists. reflexivity.
    + exfalso. apply (Hall c s0 (or_introl eq_refl) Est Et).
Qed.

(** X8.  [get_leaderboard] reads [session["end_time"]] of every completed
    session.  In a store where a completed session has no such key it
    raises [KeyError]; in every other store, reachable or not, it returns a
    list and leaves the bot as it was. *)
Theorem get_leaderboard_needs_end_time (bot : TreasureHuntBot) :
  ((exists chat s, In (chat, s) (game_data bot) /\ status s = completed /\
                   end_time s = None) ->
   get_leaderboard bot = Raise KeyError) /\
  ((forall chat s, In (chat, s) (game_data bot) -> status s = completed ->
                   end_time s <> None) ->
   exists board, get_leaderboard bot = Ok (board, bot)).
Proof.
  unfold get_leaderboard. unmonad. unfold items. split.
  - intros Hbad. now rewrite (completed_games_raises _ Hbad).
  - intros Hok. destruct (completed_games_returns _ Hok) as (games & ->).
    now eexists.
Qed.

Lemma get_leaderboard_needs_end_time_witness :
  get_leaderboard
    {| riddles := load_riddles;
       game_data := [(7, set_status (new_session 0 "foo") completed)] |}
  = Raise KeyError /\
  exists board, get_leaderboard at_end = Ok (board, at_end).
Proof.
  split.
  - apply (proj1 (get_leaderboard_needs_end_time _)).
    exists 7, (set_status (new_session 0 "foo") completed).
    split; [now left|]. split; reflexivity.
  - apply (proj2 (get_leaderboard_needs_end_time at_end)).
    intros chat s [[= <- <-]|[]] _. discriminate.
Defined.

(** ** An empty catalog *)

(** X9.  With an empty catalog a new session is [active] and has no
    current riddle: a hint is refused, every answer is told that all
    riddles are solved, no code validates.  The first [advance_riddle]
    completes it, recording position 0 as cleared though the catalog has no
    such entry. *)
Theorem empty_catalog_game
  (bot : TreasureHuntBot) (t0 t1 chat : Z) (name : string) :
  riddles bot = [] ->
  exists s bot1 s2 bot2,
    create_game_session t0 chat name bot = Ok (s, bot1) /\
    status s = active /\
    get_current_riddle chat bot1 = Ok (None, bot1) /\
    use_hint chat bot1 = Ok (NoRiddleForHint, bot1) /\
    (forall text, submit_answer chat text bot1 = Ok (AllSolved, bot1)) /\
    (forall code, validate_qr_code chat code bot1 = Ok (false, bot1)) /\
    advance_riddle t1 chat bot1 = Ok (true, bot2) /\
    session_of bot2 chat = Some s2 /\
    status s2 = completed /\ end_time s2 = Some t1 /\
    current_riddle s2 = 1 /\ completed_riddles s2 = [0].
Proof.
  intros Hrs. rewrite create_game_session_eq.
  set (s := new_session t0 name).
  set (bot1 := set_game_data bot (dict_set (game_data bot) chat s)).
  assert (Hs : session_of bot1 chat = Some s) by apply session_of_store.
  assert (Hpos : forall s0, session_of bot1 chat = Some s0 ->
                            0 <= current_riddle s0).
  { intros s0 H. rewrite Hs in H. injection H as <-. cbn. lia. }
  assert (Hat : riddle_at bot1 (current_riddle s) = None).
  { unfold riddle_at. cbn [bot1 riddles set_game_data]. rewrite Hrs.
    reflexivity. }
  exists s, bot1. eexists. eexists.
  split; [reflexivity|]. split; [reflexivity|].
  split; [rewrite get_current_riddle_eq by exact Hpos; now rewrite Hs, Hat|].
  split; [rewrite use_hint_eq by exact Hpos; now rewrite Hs, Hat|].
  split; [intros text; rewrite submit_answer_eq by exact Hpos;
          now rewrite Hs, Hat|].
  split; [intros code; rewrite validate_qr_code_eq by exact Hpos;
          now rewrite Hs, Hat|].
  split; [rewrite advance_riddle_eq, Hs; reflexivity|].
  split; [apply session_of_store|].
  cbn [advanced status end_time current_riddle completed_riddles s new_session
       bot1 riddles set_game_data].
  rewrite Hrs. now repeat split.
Qed.

Lemma empty_catalog_game_witness :
  exists s bot1,
    create_game_session 0 7 "foo" (init []) = Ok (s, bot1) /\
    get_current_riddle 7 bot1 = Ok (None, bot1).
Proof.
  destruct (empty_catalog_game (init []) 0 5 7 "foo" eq_refl)
    as (s & bot1 & _ & _ & Hc & _ & Hcur & _).
  exists s, bot1. split; [exact Hc | exact Hcur].
Defined.

(* ================================================================== *)
(** * Properties of the handlers *)

(** ** The normalised text *)

Lemma isspace_lower_char (c : ascii) : isspace (lower_char c) = isspace c.
Proof. destruct c as [[] [] [] [] [] [] [] []]; vm_compute; reflexivity. Qed.

Lemma lstrip_lower (s : string) : lstrip (lower s) = lower (lstrip s).
Proof.
  induction s as [|c s IH]; [reflexivity|].
  cbn [lower lstrip]. rewrite isspace_lower_char.
  destruct (isspace c); [exact IH | reflexivity].
Qed.

Lemma rstrip_lower (s : string) : rstrip (lower s) = lower (rstrip s).
Proof.
  induction s as [|c s IH]; [reflexivity|].
  cbn [lower rstrip]. rewrite IH, isspace_lower_char.
  destruct (rstrip s); cbn [lower]; [|reflexivity].
  now destruct (isspace c).
Qed.

Lemma strip_lower (s : string) : strip (lower s) = lower (strip s).
Proof. unfold strip. now rewrite lstrip_lower, rstrip_lower. Qed.

Lemma lstrip_head (s : string) (c : ascii) (t : string) :
  lstrip s = String c t -> isspace c = false.
Proof.
  induction s as [|c0 s IH]; [discriminate|].
  cbn [lstrip]. destruct (isspace c0) eqn:E; [exact IH|].
  now intros [= <- _].
Qed.

Lemma rstrip_idem (s : string) : rstrip (rstrip s) = rstrip s.
Proof.
  induction s as [|c s IH]; [reflexivity|].
  cbn [rstrip]. destruct (rstrip s) as [|d r] eqn:Er.
  - destruct (isspace c) eqn:E; [reflexivity|].
    cbn [rstrip]. now rewrite E.
  - cbn [rstrip] in IH |- *. now rewrite IH.
Qed.

Lemma rstrip_keeps_head (c : ascii) (t : string) :
  isspace c = false -> exists t', rstrip (String c t) = String c t'.
Proof.
  intros E. cbn [rstrip]. destruct (rstrip t); [|now eexists].
  rewrite E. now eexists.
Qed.

Lemma strip_idem (s : string) : strip (strip s) = strip s.
Proof.
  unfold strip. destruct (lstrip s) as [|c t] eqn:El; [reflexivity|].
  pose proof (lstrip_head s c t El) as E.
  destruct (rstrip_keeps_head c t E) as (t' & Hr).
  rewrite Hr. cbn [lstrip]. rewrite E, <- Hr. apply rstrip_idem.
Qed.

(** The text [handle_message] works with is not changed by stripping it
    again. *)
Lemma strip_normalised (s : string) :
  strip (lower (strip s)) = lower (strip s).
Proof. now rewrite strip_lower, strip_idem. Qed.

(** ** Handlers and the bot instance *)

Lemma call_eq {A : Type} (m : Bot A) (bot : TreasureHuntBot) (w : bool) :
  call m {| bot_instance := Some bot; waiting_for_team_name := w |} =
  match m bot with
  | Ok (a, bot') =>
      Ok (a, {| bot_instance := Some bot'; waiting_for_team_name := w |})
  | Raise e => Raise e
  end.
Proof. reflexivity. Qed.

Lemma send_riddle_new (bot : TreasureHuntBot) (now chat : Z) (name : string)
  (team : option string) :
  let bot1 := set_game_data bot
                (dict_set (game_data bot) chat (new_session now name)) in
  send_riddle chat team bot1 =
  Ok (match riddles bot with
      | [] => NoActiveRiddleFound
      | r :: _ => RiddlePresented r team
      end, bot1).
Proof.
  intros bot1. subst bot1. unfold send_riddle, bind.
  rewrite get_current_riddle_eq.
  - rewrite session_of_store. cbn [new_session current_riddle].
    change 0 with (Z.of_nat 0). rewrite riddle_at_nth.
    cbn [riddles set_game_data]. now destruct (riddles bot).
  - intros s. rewrite session_of_store. intros [= <-]. cbn. lia.
Qed.

Lemma handle_message_team (bot : TreasureHuntBot) (now chat : Z)
  (text : string) :
  let name := lower (strip text) in
  handle_message now chat text
    {| bot_instance := Some bot; waiting_for_team_name := true |} =
  if slen name <? 2
  then Ok (TeamNameTooShort,
           {| bot_instance := Some bot; waiting_for_team_name := true |})
  else Ok (match riddles bot with
           | [] => NoActiveRiddleFound
           | r :: _ => RiddlePresented r (Some name)
           end,
           {| bot_instance :=
                Some (set_game_data bot
                        (dict_set (game_data bot) chat (new_session now name)));
              waiting_for_team_name := false |}).
Proof.
  intros name. unfold handle_message, bind, get.
  cbn [no_instance bot_instance waiting_for_team_name].
  rewrite strip_normalised. fold name.
  destruct (slen name <? 2); [reflexivity|].
  rewrite call_eq, create_game_session_eq. unfold set_waiting.
  cbn [bot_instance waiting_for_team_name].
  rewrite call_eq. fold (new_session now name).
  now rewrite send_riddle_new.
Qed.

(** X10.  A text sent while a team name is awaited is the team name, after
    [strip().lower()].  If fewer than 2 characters are left the handler
    says so and nothing changes: the name is still awaited.  Otherwise the
    chat's session is a new one under that lower-cased name, whatever
    session it had, the name is no longer awaited, and the reply presents
    the first riddle of the catalog (or, with an empty catalog, says that
    there is none).  This holds in every state of the bot. *)
Theorem team_name_registration
  (bot : TreasureHuntBot) (now chat : Z) (text : string) :
  let ctx := {| bot_instance := Some bot; waiting_for_team_name := true |} in
  let name := lower (strip text) in
  (slen name < 2 ->
   handle_message now chat text ctx = Ok (TeamNameTooShort, ctx)) /\
  (2 <= slen name ->
   exists bot' s,
     handle_message now chat text ctx =
       Ok (match riddles bot with
           | [] => NoActiveRiddleFound
           | r :: _ => RiddlePresented r (Some name)
           end,
           {| bot_instance := Some bot'; waiting_for_team_name := false |}) /\
     session_of bot' chat = Some s /\
     team_name s = name /\ start_time s = now /\ hints_used s = 0 /\
     at_first_riddle s /\
     (forall c, c <> chat -> session_of bot' c = session_of bot c)).
Proof.
  intros ctx name. unfold ctx. rewrite handle_message_team. fold name. split.
  - intros Hlt. now replace (slen name <? 2) with true
      by (symmetry; apply Z.ltb_lt; lia).
  - intros Hge. replace (slen name <? 2) with false
      by (symmetry; apply Z.ltb_ge; lia).
    eexists. exists (new_session now name). split; [reflexivity|].
    split; [apply session_of_store|].
    repeat split. intros c Hc. now apply session_of_store_other.
Qed.

Lemma team_name_registration_witness :
  handle_message 5 7 " A "
    {| bot_instance := Some at_park; waiting_for_team_name := true |} =
  Ok (TeamNameTooShort,
      {| bot_instance := Some at_park; waiting_for_team_name := true |}) /\
  exists bot' s,
    handle_message 5 7 "  The Owls "
      {| bot_instance := Some at_park; waiting_for_team_name := true |} =
    Ok (match riddles at_park with
        | [] => NoActiveRiddleFound
        | r :: _ => RiddlePresented r (Some "the owls")
        end,
        {| bot_instance := Some bot'; waiting_for_team_name := false |}) /\
    session_of bot' 7 = Some s /\ team_name s = "the owls".
Proof.
  split.
  - apply (proj1 (team_name_registration at_park 5 7 " A ")).
    vm_compute. reflexivity.
  - destruct (proj2 (team_name_registration at_park 5 7 "  The Owls "))
      as (bot' & s & Hh & Hs & Hname & _).
    { vm_compute. discriminate. }
    exists bot', s. split; [exact Hh|]. split; [exact Hs | exact Hname].
Defined.

(** ** Answers *)

(** X11.  In every state the engine reaches, a text sent while no team name
    is awaited is accepted as the answer exactly when the chat has an
    [active] session with a current riddle and the text, stripped and
    lower-cased, is equal to that riddle's ["answer"] stripped and
    lower-cased (the empty text for a riddle without one); the reply then
    carries the riddle's [map_path].  Two texts with the same stripped,
    lower-cased form get the same reply, at any time. *)
Theorem answer_accepted_iff
  (rs : list Riddle) (bot : TreasureHuntBot) (now chat : Z) (text : string)
  (m : option string) :
  reachable rs bot ->
  let ctx := {| bot_instance := Some bot; waiting_for_team_name := false |} in
  (handle_message now chat text ctx = Ok (AnswerCorrect m, ctx) <->
   exists s r,
     session_of bot chat = Some s /\ status s = active /\
     get_current_riddle chat bot = Ok (Some r, bot) /\
     lower (strip text) =
       lower (strip (match answer r with Some a => a | None => "" end)) /\
     m = map_path r) /\
  (forall now' text',
      lower (strip text') = lower (strip text) ->
      handle_message now' chat text' ctx = handle_message now chat text ctx).
Proof.
  intros Hreach ctx. pose proof (reachable_inv _ _ Hreach) as Hinv.
  pose proof (bot_inv_pos rs bot chat Hinv) as Hpos.
  unfold ctx. split.
  - rewrite handle_message_answer, submit_answer_eq, get_current_riddle_eq
      by exact Hpos.
    destruct (session_of bot chat) as [s|] eqn:Es.
    + destruct (status s) eqn:Est.
      * destruct (riddle_at bot (current_riddle s)) as [r|] eqn:Er.
        -- unfold correct_answer, str_eq.
           destruct (String.eqb_spec (lower (strip text))
                       (lower (strip match answer r with
                                     | Some a => a
                                     | None => ""
                                     end))) as [Heq|Hne].
           ++ split.
              ** intros [= <-]. exists s, r. now repeat split.
              ** intros (s' & r' & [= <-] & _ & [= <-] & _ & ->). reflexivity.
           ++ split; [discriminate|].
              intros (s' & r' & [= <-] & _ & [= <-] & Heq & _). contradiction.
        -- split; [discriminate|].
           intros (s' & r' & [= <-] & _ & Hcur & _). discriminate.
      * split; [discriminate|].
        intros (s' & r' & [= <-] & Hact & _). congruence.
    + split; [discriminate|]. intros (s' & r' & Habs & _). discriminate.
  - intros now' text' Heq. rewrite !handle_message_answer. now rewrite Heq.
Qed.

Lemma answer_accepted_iff_witness :
  handle_message 20 7 " PARK"
    {| bot_instance := Some at_park; waiting_for_team_name := false |} =
  handle_message 30 7 "park  "
    {| bot_instance := Some at_park; waiting_for_team_name := false |}.
Proof.
  apply (proj2 (answer_accepted_iff load_riddles at_park 30 7 "park  " None
                  at_park_reachable)).
  vm_compute. reflexivity.
Defined.

(** ** What the handlers do to the bot *)

Lemma at_first_store (bot : TreasureHuntBot) (chat : Z) (s : Session) :
  (forall c s0, session_of bot c = Some s0 -> at_first_riddle s0) ->
  at_first_riddle s ->
  forall c s0,
    session_of (set_game_data bot (dict_set (game_data bot) chat s)) c = Some s0 ->
    at_first_riddle s0.
Proof.
  intros Hall Hs c s0. destruct (Z.eq_dec c chat) as [->|Hne].
  - rewrite session_of_store. now intros [= <-].
  - rewrite session_of_store_other by exact Hne. apply Hall.
Qed.

Lemma status_command_eq (rs : list Riddle) (bot : TreasureHuntBot) (w : bool)
  (chat : Z) :
  bot_inv rs bot ->
  let ctx := {| bot_instance := Some bot; waiting_for_team_name := w |} in
  status_command chat ctx =
  Ok (match session_of bot chat with
      | None => StatusNoGame
      | Some s =>
          match riddle_at bot (current_riddle s) with
          | None => StatusGameCompleted
          | Some r =>
              StatusSnapshot (team_name s) (len (completed_riddles s))
                (len (riddles bot)) (hints_used s) r
          end
      end, ctx).
Proof.
  intros Hinv ctx.
  unfold ctx, status_command, bind at 1, get.
  cbn [no_instance bot_instance]. unfold bind at 1. rewrite call_eq.
  unfold game_data_get at 1, bind at 1, get, ret at 1.
  fold (session_of bot chat).
  destruct (session_of bot chat) as [s|] eqn:Es; [|reflexivity].
  unfold bind at 1.
  rewrite call_eq, get_current_riddle_eq by (apply (bot_inv_pos rs); exact Hinv).
  rewrite Es. destruct (riddle_at bot (current_riddle s)); reflexivity.
Qed.

(** One update leaves the bot as it was, or with a new session for one
    chat, or with one more hint counted for a session that has a current
    riddle; and no handler raises. *)
Lemma dispatch_cases (rs : list Riddle) (u : Update) (bot : TreasureHuntBot)
  (w : bool) :
  bot_inv rs bot ->
  exists bot' w',
    dispatch u {| bot_instance := Some bot; waiting_for_team_name := w |} =
    Ok (tt, {| bot_instance := Some bot'; waiting_for_team_name := w' |}) /\
    (bot' = bot
     \/ (exists now chat name,
            bot' = set_game_data bot
                     (dict_set (game_data bot) chat (new_session now name)))
     \/ (exists chat s r,
            session_of bot chat = Some s /\
            riddle_at bot (current_riddle s) = Some r /\
            bot' = set_game_data bot
                     (dict_set (game_data bot) chat
                        (set_hints_used s (hints_used s + 1))))).
Proof.
  intros Hinv.
  assert (Hhint : forall chat,
             exists bot',
               hint_command chat {| bot_instance := Some bot;
                                    waiting_for_team_name := w |} =
               Ok (match session_of bot chat with
                   | None => NoRiddleForHint
                   | Some s => match riddle_at bot (current_riddle s) with
                               | None => NoRiddleForHint
                               | Some r => HintGiven (hint r)
                               end
                   end,
                   {| bot_instance := Some bot'; waiting_for_team_name := w |}) /\
               (bot' = bot \/
                exists chat s r,
                  session_of bot chat = Some s /\
                  riddle_at bot (current_riddle s) = Some r /\
                  bot' = set_game_data bot
                           (dict_set (game_data bot) chat
                              (set_hints_used s (hints_used s + 1))))).
  { intros chat. rewrite hint_command_eq, use_hint_eq
      by (apply (bot_inv_pos rs); exact Hinv).
    destruct (session_of bot chat) as [s|] eqn:Es;
      [|exists bot; split; [reflexivity | now left]].
    destruct (riddle_at bot (current_riddle s)) as [r|] eqn:Er;
      [|exists bot; split; [reflexivity | now left]].
    eexists. split; [reflexivity|]. right. now exists chat, s, r. }
  destruct u as [now chat text|chat|chat| |chat data]; cbn [dispatch].
  - unfold bind at 1. destruct w.
    + rewrite handle_message_team.
      destruct (slen (lower (strip text)) <? 2).
      * exists bot, true. split; [reflexivity | now left].
      * eexists. exists false. split; [reflexivity|]. right; left.
        now exists now, chat, (lower (strip text)).
    + rewrite handle_message_answer, submit_answer_eq
        by (apply (bot_inv_pos rs); exact Hinv).
      exists bot, false. split; [reflexivity | now left].
  - unfold bind at 1. destruct (Hhint chat) as (bot' & -> & Hb).
    exists bot', w. split; [reflexivity|]. destruct Hb; [now left | now right; right].
  - unfold bind at 1. rewrite (status_command_eq rs) by exact Hinv.
    exists bot, w. split; [reflexivity | now left].
  - exists bot, w. split; [reflexivity | now left].
  - unfold bind at 1.
    destruct (str_eq data "hint") eqn:Ehint.
    + apply String.eqb_eq in Ehint. subst data. rewrite button_hint_eq.
      destruct (Hhint chat) as (bot' & -> & Hb).
      exists bot', w. split; [reflexivity|].
      destruct Hb; [now left | now right; right].
    + unfold button_callback, bind at 1, get.
      cbn [no_instance bot_instance].
      destruct (str_eq data "new_game").
      { exists bot, true. split; [reflexivity | now left]. }
      destruct (str_eq data "leaderboard").
      { unfold bind at 1. rewrite call_eq.
        destruct (get_leaderboard_eq rs bot Hinv) as (games & -> & _).
        exists bot, w. split; [|now left].
        now destruct (sort_by key games). }
      destruct (str_eq data "help").
      { exists bot, w. split; [reflexivity | now left]. }
      rewrite Ehint. exists bot, w. split; [reflexivity | now left].
Qed.

Lemma main_polling (world : World) (rs : list Riddle) (args : Args)
  (ctx : Context) :
  main world rs args = Ok (Polling ctx) ->
  ctx = {| bot_instance := Some (init rs); waiting_for_team_name := false |}.
Proof.
  unfold main. rewrite TreasureHuntBot_init_eq.
  destruct (codes_fit world rs); [|discriminate].
  destruct (list_riddles args); [discriminate|].
  destruct (generate_qr args).
  { destruct (save_qr_code_images _ _ _ _); discriminate. }
  destruct (validate args).
  - destruct (has_duplicates Z.eqb _); [discriminate|].
    destruct (has_duplicates String.eqb _); discriminate.
  - destruct (no_token args); [discriminate|]. now intros [= <-].
Qed.

Lemma completed_games_none (its : list (Z * Session)) :
  (forall chat s, In (chat, s) its -> status s = active) ->
  completed_games its = Ok [].
Proof.
  induction its as [|[c s0] its IH]; intros Hall; [reflexivity|].
  cbn [completed_games]. rewrite (Hall c s0) by now left.
  cbn [Status_eqb]. apply IH. intros chat s Hin. apply (Hall chat s). now right.
Qed.

Lemma served_at_first (world : World) (rs : list Riddle) (ctx : Context) :
  served world rs ctx ->
  exists bot,
    bot_instance ctx = Some bot /\ reachable rs bot /\
    forall chat s, session_of bot chat = Some s -> at_first_riddle s.
Proof.
  induction 1 as [args ctx Hmain|ctx u ctx' _ IH Hd|ctx w _ IH].
  - apply main_polling in Hmain. subst ctx. exists (init rs).
    split; [reflexivity|]. split; [apply reach_init|]. discriminate.
  - destruct IH as (bot & Hbot & Hreach & Hfirst).
    destruct ctx as [b w]. cbn in Hbot. subst b.
    destruct (dispatch_cases rs u bot w (reachable_inv _ _ Hreach))
      as (bot' & w' & Hd' & Hcases).
    rewrite Hd in Hd'. injection Hd' as ->.
    exists bot'. split; [reflexivity|].
    destruct Hcases as [->|[(now & chat & name & ->)|(chat & s & r & Hs & Hr & ->)]].
    + now split.
    + split.
      * apply (reach_step rs bot (OpCreate now chat name)); [exact Hreach|].
        reflexivity.
      * apply at_first_store; [exact Hfirst | now repeat split].
    + split.
      * apply (reach_step rs bot (OpHint chat)); [exact Hreach|].
        cbn [exec]. unfold bind.
        rewrite use_hint_eq
          by (apply (bot_inv_pos rs); exact (reachable_inv _ _ Hreach)).
        now rewrite Hs, Hr.
      * apply at_first_store; [exact Hfirst|]. exact (Hfirst chat s Hs).
  - destruct IH as (bot & Hbot & H'). exists bot. split; [exact Hbot | exact H'].
Qed.

(** X12.  Served by the handlers [main] installs, no session ever moves.
    [handle_message] lower-cases the text before it looks for the prefix
    ["TREASURE_HUNT_"], which is in capitals, so it takes no text for a
    scanned code and never calls [advance_riddle].  Whatever updates
    arrive, from whatever users: no handler raises, every session is at
    position 0 with nothing cleared, [active] and without [end_time], and
    the leaderboard is empty. *)
Theorem handlers_never_advance
  (world : World) (rs : list Riddle) (ctx : Context) :
  served world rs ctx ->
  exists bot,
    bot_instance ctx = Some bot /\
    reachable rs bot /\
    (forall chat s,
        session_of bot chat = Some s ->
        current_riddle s = 0 /\ completed_riddles s = [] /\
        status s = active /\ end_time s = None) /\
    get_leaderboard bot = Ok ([], bot) /\
    (forall u, exists ctx',
        dispatch u ctx = Ok (tt, ctx') /\ served world rs ctx').
Proof.
  intros Hserved.
  destruct (served_at_first world rs ctx Hserved) as (bot & Hbot & Hreach & Hfirst).
  exists bot. split; [exact Hbot|]. split; [exact Hreach|].
  split; [exact Hfirst|]. split.
  - unfold get_leaderboard. unmonad. unfold items.
    rewrite completed_games_none; [reflexivity|].
    intros chat s Hin.
    pose proof (In_dict_get _ _ _
                  (inv_keys _ _ (reachable_inv _ _ Hreach)) Hin) as Hs.
    exact (proj1 (proj2 (proj2 (Hfirst chat s Hs)))).
  - intros u. destruct ctx as [b w]. cbn in Hbot. subst b.
    destruct (dispatch_cases rs u bot w (reachable_inv _ _ Hreach))
      as (bot' & w' & Hd & _).
    eexists. split; [exact Hd|].
    exact (served_update world rs _ u _ Hserved Hd).
Qed.

Lemma handlers_never_advance_witness :
  exists ctx bot s,
    dispatch (Message 5 7 "TREASURE_HUNT_LOC_1_PARK")
      {| bot_instance := Some at_start; waiting_for_team_name := false |} =
    Ok (tt, ctx) /\
    bot_instance ctx = Some bot /\
    session_of bot 7 = Some s /\ current_riddle s = 0.
Proof.
  assert (H0 : served calm load_riddles
                 {| bot_instance := Some (init load_riddles);
                    waiting_for_team_name := false |}).
  { apply (served_main calm load_riddles token_only). vm_compute. reflexivity. }
  assert (H1 : served calm load_riddles
                 {| bot_instance := Some (init load_riddles);
                    waiting_for_team_name := true |}).
  { exact (served_user calm load_riddles _ true H0). }
  assert (H2 : served calm load_riddles
                 {| bot_instance := Some at_start;
                    waiting_for_team_name := false |}).
  { apply (served_update calm load_riddles _ (Message 0 7 "foo") _ H1).
    vm_compute. reflexivity. }
  destruct (handlers_never_advance calm load_riddles _ H2)
    as (_ & _ & _ & _ & _ & Hu).
  destruct (Hu (Message 5 7 "TREASURE_HUNT_LOC_1_PARK")) as (ctx & Hd & Hserved).
  destruct (handlers_never_advance calm load_riddles ctx Hserved)
    as (bot & Hbot & _ & Hfirst & _).
  assert (Hs : exists s, session_of bot 7 = Some s).
  { vm_compute in Hd. injection Hd as <-. cbn in Hbot. injection Hbot as <-.
    eexists. vm_compute. reflexivity. }
  destruct Hs as (s & Hs).
  exists ctx, bot, s. split; [exact Hd|]. split; [exact Hbot|].
  split; [exact Hs|]. exact (proj1 (Hfirst 7 s Hs)).
Defined.

(** ** [status_command] *)

(** X13.  In every state the engine reaches, [status_command] changes
    nothing.  Without a session it reports that there is no game; for a
    session at or past the end of the catalog (a new session on an empty
    catalog too) that the game is completed; otherwise it shows the team
    name, the hints used, the current riddle, and as progress the session's
    position, which is below the total shown, the catalog length. *)
Theorem status_command_shows_progress
  (rs : list Riddle) (bot : TreasureHuntBot) (chat : Z) (w : bool) :
  reachable rs bot ->
  let ctx := {| bot_instance := Some bot; waiting_for_team_name := w |} in
  exists reply,
    status_command chat ctx = Ok (reply, ctx) /\
    (session_of bot chat = None -> reply = StatusNoGame) /\
    (forall s,
        session_of bot chat = Some s ->
        (len rs <= current_riddle s -> reply = StatusGameCompleted) /\
        (current_riddle s < len rs ->
         exists r,
           nth_error rs (Z.to_nat (current_riddle s)) = Some r /\
           reply = StatusSnapshot (team_name s) (current_riddle s) (len rs)
                     (hints_used s) r)).
Proof.
  intros Hreach ctx. pose proof (reachable_inv _ _ Hreach) as Hinv.
  pose proof (inv_riddles _ _ Hinv) as Hrs.
  unfold ctx. rewrite (status_command_eq rs) by exact Hinv.
  eexists. split; [reflexivity|]. split; [now intros ->|].
  intros s Hs. rewrite Hs.
  pose proof (bot_inv_session _ _ _ _ Hinv Hs) as Hsi.
  pose proof (inv_pos _ _ Hsi) as Hpos. split.
  - intros Hge.
    assert (H : riddle_at bot (current_riddle s) = None)
      by (apply riddle_at_None; [exact Hpos | now rewrite Hrs]).
    now rewrite H.
  - intros Hlt.
    destruct (riddle_at bot (current_riddle s)) as [r|] eqn:Er.
    + apply riddle_at_Some in Er as [_ Hnth]. rewrite Hrs in Hnth.
      exists r. split; [exact Hnth|].
      rewrite Hrs. f_equal. rewrite (inv_done _ _ Hsi).
      now apply range_length.
    + apply riddle_at_None in Er; [|exact Hpos]. rewrite Hrs in Er. lia.
Qed.

Lemma status_command_shows_progress_witness :
  exists r,
    status_command 7
      {| bot_instance := Some at_cafe; waiting_for_team_name := false |} =
    Ok (StatusSnapshot "foo" 2 4 0 r,
        {| bot_instance := Some at_cafe; waiting_for_team_name := false |}).
Proof.
  destruct (status_command_shows_progress load_riddles at_cafe 7 false
              at_cafe_reachable) as (reply & Hc & _ & Hsome).
  assert (Hs : session_of at_cafe 7 = Some session_at_cafe)
    by (vm_compute; reflexivity).
  destruct (proj2 (Hsome session_at_cafe Hs)) as (r & _ & Hr).
  { vm_compute. reflexivity. }
  exists r. rewrite Hc, Hr. reflexivity.
Defined.

(** ** The leaderboard button *)

Lemma sorted_app_le {A : Type} (R : A -> A -> Prop) (l1 l2 : list A) :
  StronglySorted R (l1 ++ l2) ->
  forall a b, In a l1 -> In b l2 -> R a b.
Proof.
  induction l1 as [|x l1 IH]; intros Hs a b Ha Hb; [destruct Ha|].
  cbn in Hs. apply StronglySorted_inv in Hs as [Hs Hall].
  destruct Ha as [<-|Ha].
  - rewrite Forall_forall in Hall. apply Hall, in_or_app. now right.
  - now apply IH.
Qed.

(** X14.  In every state the engine reaches, the leaderboard button
    changes nothing.  With no completed game it says so; otherwise it shows
    the first ten entries of [get_leaderboard], at most ten teams, and none
    that is left out ranks ahead of one that is shown. *)
Theorem leaderboard_button_shows_the_first_ten
  (rs : list Riddle) (bot : TreasureHuntBot) (chat : Z) (w : bool) :
  reachable rs bot ->
  let ctx := {| bot_instance := Some bot; waiting_for_team_name := w |} in
  exists board,
    get_leaderboard bot = Ok (board, bot) /\
    button_callback chat "leaderboard" ctx =
      Ok (match board with
          | [] => LeaderboardEmpty
          | _ => Leaderboard (firstn 10 board)
          end, ctx) /\
    (List.length (firstn 10 board) <= 10)%nat /\
    (forall a b, In a (firstn 10 board) -> In b (skipn 10 board) ->
                 ranks_before a b).
Proof.
  intros Hreach ctx. pose proof (reachable_inv _ _ Hreach) as Hinv.
  destruct (get_leaderboard_eq rs bot Hinv) as (games & Hb & _).
  exists (sort_by key games). split; [exact Hb|]. split; [|split].
  - unfold ctx, button_callback, bind at 1, get.
    cbn [no_instance bot_instance].
    change (str_eq "leaderboard" "new_game") with false.
    change (str_eq "leaderboard" "leaderboard") with true.
    cbn match. unfold bind at 1. rewrite call_eq, Hb.
    now destruct (sort_by key games).
  - apply firstn_le_length.
  - intros a b Ha Hb'. apply key_le_ranks_before.
    apply (sorted_app_le (key_le key) (firstn 10 (sort_by key games))
             (skipn 10 (sort_by key games))); [|exact Ha | exact Hb'].
    rewrite firstn_skipn. apply sort_by_sorted.
Qed.

Lemma leaderboard_button_shows_the_first_ten_witness :
  exists board,
    button_callback 9 "leaderboard"
      {| bot_instance := Some two_finished; waiting_for_team_name := false |} =
    Ok (match board with
        | [] => LeaderboardEmpty
        | _ => Leaderboard (firstn 10 board)
        end,
        {| bot_instance := Some two_finished; waiting_for_team_name := false |}).
Proof.
  destruct (leaderboard_button_shows_the_first_ten load_riddles two_finished 9
              false two_finished_reachable) as (board & _ & Hb & _).
  exists board. exact Hb.
Defined.

(** ** [--validate] *)

(** X15.  A run of [main] with [--validate] (and neither [--list-riddles]
    nor [--generate-qr]) raises [ValueError], from the constructor, exactly
    when a code of the catalog fits no QR symbol.  Otherwise it reports
    that the configuration passed exactly when no two riddles of the
    catalog have the same ["id"] and no two the same ["qr_code"]; it
    reports duplicate ids exactly when two riddles share an id, and
    duplicate codes exactly when the ids are all different and two riddles
    share a code: the ids are checked first. *)
Theorem validate_reports_duplicates
  (w : World) (rs : list Riddle) (args : Args) :
  list_riddles args = false ->
  generate_qr args = false ->
  validate args = true ->
  (main w rs args = Raise ValueError <-> codes_fit w rs = false) /\
  (main w rs args = Ok ValidationPassed <->
   codes_fit w rs = true /\ NoDup (map id rs) /\ NoDup (map qr_code rs)) /\
  (main w rs args = Ok DuplicateIds <->
   codes_fit w rs = true /\ ~ NoDup (map id rs)) /\
  (main w rs args = Ok DuplicateQrCodes <->
   codes_fit w rs = true /\ NoDup (map id rs) /\ ~ NoDup (map qr_code rs)).
Proof.
  intros Hl Hg Hv. unfold main. rewrite TreasureHuntBot_init_eq.
  destruct (codes_fit w rs).
  2:{ repeat split; try discriminate; try tauto; intros [H _]; discriminate H. }
  rewrite Hl, Hg, Hv. cbn [init riddles].
  pose proof (has_duplicates_false Z.eqb Z.eqb_eq (map id rs)) as Hid.
  pose proof (has_duplicates_false String.eqb String.eqb_eq (map qr_code rs))
    as Hqr.
  destruct (has_duplicates Z.eqb (map id rs)).
  - assert (Hn : ~ NoDup (map id rs)) by (intros H; apply Hid in H; discriminate).
    repeat split; try discriminate; try tauto.
  - assert (Hy : NoDup (map id rs)) by now apply Hid.
    destruct (has_duplicates String.eqb (map qr_code rs)).
    + assert (Hn : ~ NoDup (map qr_code rs))
        by (intros H; apply Hqr in H; discriminate).
      repeat split; try discriminate; try tauto.
    + assert (Hy' : NoDup (map qr_code rs)) by now apply Hqr.
      repeat split; try discriminate; try tauto.
Qed.

Lemma validate_reports_duplicates_witness :
  main calm load_riddles validate_only = Ok ValidationPassed /\
  NoDup (map id load_riddles) /\ NoDup (map qr_code load_riddles).
Proof.
  destruct (validate_reports_duplicates calm load_riddles validate_only
              eq_refl eq_refl eq_refl) as (_ & Hp & _).
  split; [vm_compute; reflexivity|].
  apply Hp. vm_compute. reflexivity.
Defined.

(** ** The files of [save_qr_code_images] *)

Lemma format_02d_uint (i : nat) :
  exists u, format_02d i = NilEmpty.string_of_uint u /\ Nat.of_uint u = i.
Proof.
  unfold format_02d.
  destruct (String.length _ <? 2)%nat.
  - exists (D0 (Nat.to_uint i)). split; [reflexivity|].
    change (Nat.of_uint (D0 (Nat.to_uint i))) with (Nat.of_uint (Nat.to_uint i)).
    apply DecimalNat.Unsigned.of_to.
  - exists (Nat.to_uint i). split; [reflexivity|].
    apply DecimalNat.Unsigned.of_to.
Qed.

(** Digits end where the underscore is. *)
Lemma digits_until_underscore (u u' : uint) (t t' : string) :
  (NilEmpty.string_of_uint u ++ String "_" t)%string =
  (NilEmpty.string_of_uint u' ++ String "_" t')%string ->
  u = u' /\ t = t'.
Proof.
  revert u'. induction u; destruct u'; cbn; intros H;
    try discriminate H;
    try (injection H as H; destruct (IHu _ H) as [-> ->]; now split).
  injection H as ->. now split.
Qed.

Lemma qr_filename_inj (i j : nat) (r r' : Riddle) :
  qr_filename i r = qr_filename j r' -> i = j.
Proof.
  unfold qr_filename.
  destruct (format_02d_uint i) as (u & -> & <-).
  destruct (format_02d_uint j) as (u' & -> & <-).
  cbn [String.append]. intros H. injection H as H.
  now destruct (digits_until_underscore _ _ _ _ H) as [-> _].
Qed.

Lemma append_cancel (a b c : string) :
  (a ++ b)%string = (a ++ c)%string -> b = c.
Proof.
  induction a as [|x a IH]; cbn; [trivial|]. intros [= H]. now apply IH.
Qed.

(** Joined to one directory, two file names that do not start with the
    separator give the same path only if they are the same name. *)
Lemma path_join_inj (dir b c : string) :
  startswith b "/" = false -> startswith c "/" = false ->
  path_join dir b = path_join dir c -> b = c.
Proof.
  intros Hb Hc. unfold path_join. rewrite Hb, Hc.
  destruct (String.eqb dir "" || ends_with_sep dir); intros H.
  - exact (append_cancel _ _ _ H).
  - apply append_cancel in H. now injection H.
Qed.

Lemma qr_filename_relative (i : nat) (r : Riddle) :
  startswith (qr_filename i r) "/" = false.
Proof. reflexivity. Qed.

Lemma stop_paths_In (dir : string) (rs : list Riddle) (i : nat) (p : string) :
  In p (map (fun ir => path_join dir (qr_filename (fst ir) (snd ir)))
          (combine (seq i (List.length rs)) rs)) ->
  exists j r, (i <= j)%nat /\ p = path_join dir (qr_filename j r).
Proof.
  intros Hin. apply in_map_iff in Hin as ([j r] & <- & Hin).
  apply in_combine_l in Hin. apply in_seq in Hin.
  exists j, r. split; [lia | reflexivity].
Qed.

Lemma stop_paths_NoDup (dir : string) (rs : list Riddle) :
  forall i,
    NoDup (map (fun ir => path_join dir (qr_filename (fst ir) (snd ir)))
             (combine (seq i (List.length rs)) rs)).
Proof.
  induction rs as [|r rs IH]; intros i; [constructor|].
  cbn [List.length seq combine map fst snd]. constructor; [|apply IH].
  intros Hin. apply stop_paths_In in Hin as (j & r' & Hle & Heq).
  apply path_join_inj in Heq; try apply qr_filename_relative.
  apply qr_filename_inj in Heq. lia.
Qed.

(** What the loop over the riddles writes, when it gets to its end. *)
Lemma save_images_written (w : World) (dir : string) (rs : list Riddle) :
  forall i written written',
    save_images w dir i rs written = Ok (tt, written') ->
    written' =
      written ++
      map (fun ir => path_join dir (qr_filename (fst ir) (snd ir)))
        (combine (seq i (List.length rs)) rs).
Proof.
  induction rs as [|r rs IH]; intros i written written'.
  - cbn. intros [= <-]. now rewrite app_nil_r.
  - cbn [save_images]. unfold bind at 1, lift at 1.
    destruct (make_qr w ERROR_CORRECT_L 10 4 (qr_code r)); [|discriminate].
    unfold bind at 1, write at 1.
    destruct (write_file w _); [|discriminate].
    intros H. apply IH in H. rewrite H, <- app_assoc. reflexivity.
Qed.

Lemma save_images_succeeds (w : World) (dir : string) (rs : list Riddle) :
  (forall p, write_file w p = Ok tt) ->
  (forall r, In r rs -> qr_fits w ERROR_CORRECT_L (qr_code r) = true) ->
  forall i written, exists written', save_images w dir i rs written = Ok (tt, written').
Proof.
  intros Hw. induction rs as [|r rs IH]; intros Hfit i written.
  - now eexists.
  - cbn [save_images]. unfold bind at 1, lift at 1, make_qr.
    rewrite (Hfit r) by now left.
    unfold bind at 1, write at 1. rewrite Hw.
    apply IH. intros r' Hr'. apply Hfit. now right.
Qed.

(** X16.  [save_qr_code_images] first makes the directory, and raises what
    [os.makedirs] raises (as it does for the empty path) before it writes
    anything.  Whenever it returns, it returns [True] and has written one
    image for each riddle of the catalog, in order, at
    [stop_<number>_<location>.png] in the directory, and then the summary;
    no two of the paths it has written are the same string: the stop's
    number is in the file name, so stops at the same location get files of
    their own, and the summary has a name no image has.  It does return
    when the directory can be made, every file can be written and every
    code fits a QR symbol. *)
Theorem saved_files_are_distinct
  (w : World) (output_dir : string) (self : TreasureHuntBot) :
  (forall e, makedirs w output_dir = Raise e ->
             save_qr_code_images w output_dir self [] = Raise e) /\
  (forall flag written,
      save_qr_code_images w output_dir self [] = Ok (flag, written) ->
      flag = true /\
      written =
        map (fun ir => path_join output_dir (qr_filename (fst ir) (snd ir)))
          (combine (seq 1 (List.length (riddles self))) (riddles self))
        ++ [path_join output_dir "qr_codes_summary.txt"] /\
      List.length written = S (List.length (riddles self)) /\
      NoDup written) /\
  (makedirs w output_dir = Ok tt ->
   (forall p, write_file w p = Ok tt) ->
   (forall r, In r (riddles self) ->
              qr_fits w ERROR_CORRECT_L (qr_code r) = true) ->
   exists written,
     save_qr_code_images w output_dir self [] = Ok (true, written)).
Proof.
  unfold save_qr_code_images. split; [|split].
  - intros e He. unfold bind at 1, lift at 1. now rewrite He.
  - intros flag written. unfold bind at 1, lift at 1.
    destruct (makedirs w output_dir) as [[]|e]; [|discriminate].
    unfold bind at 1.
    destruct (save_images w output_dir 1 (riddles self) [])
      as [[[] images]|e] eqn:Eimg; [|discriminate].
    apply save_images_written in Eimg. rewrite app_nil_l in Eimg.
    unfold bind at 1, write at 1.
    destruct (write_file w _); [|discriminate].
    cbn [ret]. intros [= <- <-]. subst images.
    split; [reflexivity|]. split; [reflexivity|]. split.
    + rewrite length_app, length_map, length_combine, length_seq.
      cbn [List.length]. lia.
    + eapply Permutation_NoDup; [apply Permutation_cons_append|].
      constructor.
      * intros Hin.
        apply stop_paths_In in Hin as (j & r & _ & Heq).
        apply path_join_inj in Heq;
          [discriminate Heq | reflexivity | apply qr_filename_relative].
      * apply stop_paths_NoDup.
  - intros Hdir Hw Hfit. unfold bind at 1, lift at 1. rewrite Hdir.
    unfold bind at 1.
    destruct (save_images_succeeds w output_dir (riddles self) Hw Hfit 1%nat [])
      as (images & ->).
    unfold bind at 1, write at 1. rewrite Hw. now eexists.
Qed.

Lemma saved_files_are_distinct_witness :
  save_qr_code_images calm "" (init load_riddles) [] = Raise FileNotFoundError /\
  save_qr_code_images calm "qr_codes" (init load_riddles) [] =
  Ok (true, ["qr_codes/stop_01_start.png"; "qr_codes/stop_02_park.png";
             "qr_codes/stop_03_cafe.png"; "qr_codes/stop_04_start.png";
             "qr_codes/qr_codes_summary.txt"]).
Proof.
  destruct (saved_files_are_distinct calm "" (init load_riddles)) as (He & _).
  destruct (saved_files_are_distinct calm "qr_codes" (init load_riddles))
    as (_ & Hw & Hok).
  split; [apply He; reflexivity|].
  destruct Hok as (written & Hs);
    [reflexivity | reflexivity | intros r Hr; vm_compute in Hr;
       repeat (destruct Hr as [<-|Hr]; [vm_compute; reflexivity|]);
       destruct Hr |].
  rewrite Hs. destruct (Hw true written Hs) as (_ & Heq & _).
  rewrite Heq. vm_compute. reflexivity.
Defined.

(** ** Registering again *)

(** X17.  Pressing the new-game button and then sending a name of two
    characters or more always gives the chat a new session, in every state
    of the bot: a game in progress or a completed one is replaced, its
    position, its hints and its times are gone, and the name is no longer
    awaited. *)
Theorem new_game_starts_over
  (bot : TreasureHuntBot) (w : bool) (now chat : Z) (text : string) :
  2 <= slen (lower (strip text)) ->
  let ctx := {| bot_instance := Some bot; waiting_for_team_name := w |} in
  let updates := dispatch (Button chat "new_game") ;;;
                 dispatch (Message now chat text) in
  exists bot' s,
    updates ctx =
      Ok (tt, {| bot_instance := Some bot'; waiting_for_team_name := false |}) /\
    session_of bot' chat = Some s /\
    team_name s = lower (strip text) /\ start_time s = now /\
    hints_used s = 0 /\ current_riddle s = 0 /\ completed_riddles s = [] /\
    status s = active /\ end_time s = None.
Proof.
  intros Hlen ctx updates.
  unfold updates, ctx, bind at 1. cbn [dispatch]. unfold bind at 1.
  unfold button_callback, bind at 1, get. cbn [no_instance bot_instance].
  change (str_eq "new_game" "new_game") with true. cbn match.
  unfold bind at 1, set_waiting, ret.
  cbn [bot_instance waiting_for_team_name]. unfold bind at 1.
  rewrite handle_message_team.
  replace (slen (lower (strip text)) <? 2) with false
    by (symmetry; apply Z.ltb_ge; lia).
  eexists. exists (new_session now (lower (strip text))).
  split; [reflexivity|]. split; [apply session_of_store|]. now repeat split.
Qed.

Lemma new_game_starts_over_witness :
  exists bot' s,
    (dispatch (Button 7 "new_game") ;;; dispatch (Message 99 7 "Owls"))
      {| bot_instance := Some at_end; waiting_for_team_name := false |} =
    Ok (tt, {| bot_instance := Some bot'; waiting_for_team_name := false |}) /\
    session_of bot' 7 = Some s /\ status s = active /\ current_riddle s = 0.
Proof.
  destruct (new_game_starts_over at_end false 99 7 "Owls")
    as (bot' & s & Hu & Hs & _ & _ & _ & Hcur & _ & Hst & _).
  { vm_compute. discriminate. }
  exists bot', s. split; [exact Hu|]. split; [exact Hs|].
  split; [exact Hst | exact Hcur].
Defined.

(** ** A game played to the end *)

Lemma run_app (ops1 ops2 : list Op) (bot : TreasureHuntBot) :
  run (ops1 ++ ops2) bot =
  match run ops1 bot with
  | Ok (_, bot1) => run ops2 bot1
  | Raise e => Raise e
  end.
Proof.
  revert bot. induction ops1 as [|op ops1 IH]; intros bot; [reflexivity|].
  rewrite <- app_comm_cons, !run_cons.
  destruct (exec op bot) as [[[] bot1]|e]; [apply IH | reflexivity].
Qed.

Lemma advance_times_keeps (chat : Z) (times : list Z) :
  forall (bot : TreasureHuntBot) (s : Session),
    session_of bot chat = Some s ->
    exists bot' s',
      advance_times times chat bot = Ok (tt, bot') /\
      riddles bot' = riddles bot /\
      session_of bot' chat = Some s' /\
      current_riddle s' = current_riddle s + len times /\
      team_name s' = team_name s /\ start_time s' = start_time s /\
      hints_used s' = hints_used s.
Proof.
  induction times as [|now times IH]; intros bot s Hs.
  - exists bot, s. repeat split; auto. unfold len. cbn. lia.
  - unfold advance_times in *. cbn [map]. rewrite run_cons, exec_advance, Hs.
    destruct (IH _ (advanced (riddles bot) now s)
                (session_of_store bot chat _))
      as (bot' & s' & Hrun & Hrs & Hs' & Hcur & Hname & Hstart & Hhints).
    exists bot', s'. split; [exact Hrun|]. split; [exact Hrs|].
    split; [exact Hs'|]. cbn in Hcur, Hname, Hstart, Hhints.
    assert (Hlen : len (now :: times) = len times + 1)
      by (unfold len; cbn [List.length]; lia).
    repeat split; try assumption. lia.
Qed.

(** X18.  A game played to the end is on the leaderboard with the time from
    registration to the last stop: after [create_game_session] at [t0] and
    as many calls of [advance_riddle] as the catalog has riddles, the last
    at [t_end], [get_leaderboard] has the entry of the chat with the team's
    name, no hints and the duration [t_end - t0].  This is so from every
    state the engine reaches, whatever the other chats have done. *)
Theorem finished_game_is_on_the_board
  (rs : list Riddle) (bot : TreasureHuntBot) (t0 t_end chat : Z)
  (name : string) (times : list Z) :
  reachable rs bot ->
  len times + 1 = len rs ->
  let ops := OpCreate t0 chat name
             :: map (fun now => OpAdvance now chat) (times ++ [t_end]) in
  exists bot' board,
    run ops bot = Ok (tt, bot') /\
    get_leaderboard bot' = Ok (board, bot') /\
    In {| e_team_name := name; duration := t_end - t0; e_hints_used := 0;
          chat_id := chat |} board.
Proof.
  intros Hreach Hlen ops.
  pose proof (inv_riddles _ _ (reachable_inv _ _ Hreach)) as Hrs.
  destruct (engine_run_from rs ops bot Hreach) as (bot' & Hrun & Hreach').
  pose proof (reachable_inv _ _ Hreach') as Hinv'.
  destruct (get_leaderboard_eq rs bot' Hinv') as (games & Hb & _).
  exists bot', (sort_by key games). split; [exact Hrun|]. split; [exact Hb|].
  apply (leaderboard_entry_of_chat rs bot' _ _ Hinv' Hb). cbn [chat_id].
  (* the session the run leaves *)
  unfold ops in Hrun. rewrite run_cons in Hrun. cbn [exec] in Hrun.
  unfold bind at 1 in Hrun. rewrite create_game_session_eq in Hrun.
  cbn [ret] in Hrun. rewrite map_app, run_app in Hrun.
  set (bot1 := set_game_data bot _) in Hrun.
  destruct (advance_times_keeps chat times bot1 (new_session t0 name)
              (session_of_store bot chat _))
    as (bot2 & s2 & Hrun2 & Hrs2 & Hs2 & Hcur & Hname & Hstart & Hhints).
  unfold advance_times in Hrun2. rewrite Hrun2 in Hrun.
  cbn [map] in Hrun. rewrite run_cons, exec_advance, Hs2 in Hrun.
  injection Hrun as <-.
  exists (advanced (riddles bot2) t_end s2), t_end.
  split; [apply session_of_store|].
  cbn [new_session current_riddle team_name start_time hints_used] in *.
  assert (Hge : (current_riddle s2 + 1 >=? len (riddles bot2)) = true).
  { rewrite Z.geb_leb. apply Z.leb_le. rewrite Hrs2. cbn [bot1 riddles
      set_game_data]. rewrite Hrs. lia. }
  cbn [advanced status end_time]. rewrite Hge.
  split; [reflexivity|]. split; [reflexivity|].
  unfold entry. cbn [advanced team_name start_time hints_used].
  now rewrite Hname, Hstart, Hhints.
Qed.

Lemma finished_game_is_on_the_board_witness :
  exists bot' board,
    run (OpCreate 1000 9 "owls"
         :: map (fun now => OpAdvance now 9) ([1010; 1020; 1030] ++ [1040]))
      at_park = Ok (tt, bot') /\
    get_leaderboard bot' = Ok (board, bot') /\
    In {| e_team_name := "owls"; duration := 1040 - 1000; e_hints_used := 0;
          chat_id := 9 |} board.
Proof.
  apply (finished_game_is_on_the_board load_riddles at_park 1000 1040 9 "owls"
           [1010; 1020; 1030] at_park_reachable).
  vm_compute. reflexivity.
Defined.
